(** * The retrieval-augmented question answering pipeline of [app/rag/rag.py]

    A shallow embedding of the functions of [rag.py] ([get_pdf_text],
    [get_text_chunks], [get_vector_store], [process_question],
    [process_question_simple], [list_available_models],
    [test_api_connection], [main]) and of [clean_text_for_json] of
    [app/notegen/notegen.py], together with the properties the
    specification states about them and further properties that the code
    shows.

    Python values are represented as follows:
    - a [str] is the list of its Unicode code points, so that [len] counts
      code points as Python does;
    - an exception is its class, its message ([str(e)]) and the exception
      that was being handled when it was raised ([__context__]);
    - a function that touches the file system, the environment, standard
      output or one of the external services is a state transformer over
      [World] that returns either an exception or a value. *)

From Stdlib Require Import ZArith Ascii String QArith.
From stdpp Require Import base tactics option list gmap sorting pretty.

Local Open Scope Z_scope.

(** ** Python strings *)

Module Py.

Abbreviation str := (list N).

(** ASCII literal of the source, as a [str]. *)
Definition lit (s : string) : str :=
  (λ a, N_of_ascii a) <$> list_ascii_of_string s.

Definition len {A} (l : list A) : Z := Z.of_nat (length l).

Definition dquote : N := 34%N.
Definition newline : N := 10%N.

(** [c.isspace()] for one code point: the characters [str.strip()]
    removes when called without argument. *)
Definition isspace (c : N) : bool :=
  ((9 <=? c) && (c <=? 13) || (28 <=? c) && (c <=? 32)
   || (c =? 133) || (c =? 160) || (c =? 5760)
   || (8192 <=? c) && (c <=? 8202)
   || (c =? 8232) || (c =? 8233) || (c =? 8239) || (c =? 8287)
   || (c =? 12288))%N.

Fixpoint lstrip (s : str) : str :=
  match s with
  | c :: s' => if isspace c then lstrip s' else s
  | [] => []
  end.

Definition rstrip (s : str) : str := reverse (lstrip (reverse s)).

Definition strip (s : str) : str := rstrip (lstrip s).

(** [sep.join(parts)] *)
Fixpoint join (sep : str) (parts : list str) : str :=
  match parts with
  | [] => []
  | [p] => p
  | p :: ps => p ++ sep ++ join sep ps
  end.

(** [s.startswith(p)] *)
Fixpoint startswith (p s : str) : bool :=
  match p, s with
  | [], _ => true
  | a :: p', b :: s' => (a =? b)%N && startswith p' s'
  | _ :: _, [] => false
  end.

(** [p in s] for strings *)
Fixpoint contains (p s : str) : bool :=
  startswith p s || match s with [] => false | _ :: s' => contains p s' end.

(** Exception classes that occur in [rag.py] or are raised by the
    collaborators it calls. All of them are subclasses of [Exception],
    so [except Exception] catches every one. *)
Inductive exc_class :=
| Exception | ValueError | FileNotFoundError | FileExistsError
| IsADirectoryError | NotADirectoryError | IndexError | KeyError
| RuntimeError.

#[warnings="-register-all"]
Inductive exn :=
| Exn (cls : exc_class) (msg : str) (context : option exn).

Definition class_of (e : exn) : exc_class := let 'Exn c _ _ := e in c.
(** [str(e)] *)
Definition str_of (e : exn) : str := let 'Exn _ m _ := e in m.
(** [e.__context__] *)
Definition context_of (e : exn) : option exn := let 'Exn _ _ c := e in c.

(** Outcome of a call: an exception or a value. *)
Definition result (A : Type) : Type := exn + A.

Definition rbind {A B} (r : result A) (k : A → result B) : result B :=
  match r with inl e => inl e | inr a => k a end.

(** [try: r  except Exception as e: raise h e]: the new exception carries
    the handled one as its context. *)
Definition reraise {A} (r : result A) (h : exn → exc_class * str) : result A :=
  match r with
  | inl e => let '(c, m) := h e in inl (Exn c m (Some e))
  | inr a => inr a
  end.

End Py.

Import Py.

#[global] Instance result_bind : MBind (sum exn) := λ A B k r, rbind r k.
#[global] Instance result_ret : MRet (sum exn) := @inr exn.

#[global] Instance exc_class_eq_dec : EqDecision exc_class.
Proof. solve_decision. Defined.

(** ** The text splitter

    [langchain.text_splitter.RecursiveCharacterTextSplitter] is a library
    class; [rag.py] only constructs it and calls [split_text]. The class
    is not part of the repository, so it is modelled here after section
    4.1 of the specification: separators are tried in priority order,
    coarsest first; pieces below [chunk_size] are merged into chunks that
    stay within [chunk_size] and start with up to [chunk_overlap]
    characters of the previous chunk; a piece that is still too long is
    split again with the finer separators, down to single characters. The
    options the call leaves at their defaults are fixed: separators are
    literal, each separator is kept at the start of the piece that follows
    it, and chunks are stripped. *)

Module RecursiveCharacterTextSplitter.

Record t := {
  chunk_size : Z;
  chunk_overlap : Z;
  separators : list str
}.

Section Splitter.
Variable self : t.

(** Modelled from the spec: [_join_docs] of the splitter class, which is
    not in the repository. The pieces of a chunk are joined and the chunk
    is stripped; a chunk that is blank is no chunk. *)
Definition _join_docs (docs : list str) (separator : str) : option str :=
  let text := strip (join separator docs) in
  if decide (text = []) then None else Some text.

(** The length a separator adds when there is a piece to separate from. *)
Definition sep_if (b : bool) (separator : str) : Z :=
  if b then len separator else 0.

(** Modelled from the spec: the inner [while] loop of [_merge_splits] of
    the splitter class, which is not in the repository. Pieces are
    dropped from the front of [current_doc] until what is left is within
    [chunk_overlap] and leaves room for the next piece, of length
    [_len]. Taking the first piece of an empty list raises. *)
Fixpoint pop_front (separator : str) (_len total : Z) (current_doc : list str)
  : result (Z * list str) :=
  if decide (total > chunk_overlap self
             ∨ (total + _len + sep_if (bool_decide (len current_doc > 0)) separator
                  > chunk_size self
                ∧ total > 0))
  then
    match current_doc with
    | [] => inl (Exn IndexError (lit "list index out of range") None)
    | d0 :: tl =>
        pop_front separator _len
          (total - (len d0 + sep_if (bool_decide (len current_doc > 1)) separator)) tl
    end
  else inr (total, current_doc).

(** Modelled from the spec: one iteration of the [for d in splits] loop
    of [_merge_splits] of the splitter class, which is not in the
    repository, on the state [(docs, current_doc, total)]. When the next
    piece does not fit, the chunk being built is closed and its tail, up
    to [chunk_overlap], starts the next chunk. *)
Definition merge_step (separator : str) (st : list str * list str * Z) (d : str)
  : result (list str * list str * Z) :=
  let '(docs, current_doc, total) := st in
  let _len := len d in
  '(docs, current_doc, total) ←
    (if decide (total + _len + sep_if (bool_decide (len current_doc > 0)) separator
                > chunk_size self)
     then
       if decide (len current_doc > 0) then
         let docs :=
           match _join_docs current_doc separator with
           | Some doc => docs ++ [doc]
           | None => docs
           end in
         '(total, current_doc) ← pop_front separator _len total current_doc;
         inr (docs, current_doc, total)
       else inr (docs, current_doc, total)
     else inr (docs, current_doc, total));
  let current_doc := current_doc ++ [d] in
  inr (docs, current_doc,
       total + (_len + sep_if (bool_decide (len current_doc > 1)) separator)).

(** Modelled from the spec: the [for d in splits] loop of [_merge_splits]
    of the splitter class, which is not in the repository. *)
Fixpoint merge_loop (separator : str) (st : list str * list str * Z)
  (splits : list str) : result (list str * list str * Z) :=
  match splits with
  | [] => inr st
  | d :: splits' =>
      st' ← merge_step separator st d;
      merge_loop separator st' splits'
  end.

(** Modelled from the spec: [_merge_splits] of the splitter class, which
    is not in the repository: small pieces are merged into chunks within
    [chunk_size], consecutive chunks overlapping. *)
Definition _merge_splits (splits : list str) (separator : str) : result (list str) :=
  '(docs, current_doc, _) ← merge_loop separator ([], [], 0) splits;
  inr (match _join_docs current_doc separator with
       | Some doc => docs ++ [doc]
       | None => docs
       end).

(** Modelled from the spec: the regular-expression split the splitter
    class relies on, which is not in the repository, for a literal,
    non-empty [separator] that is kept at the start of the following
    piece. [skip] counts the characters of a matched separator still to
    be consumed and [cur] is the piece being read, reversed. *)
Fixpoint split_keep (separator : str) (skip : nat) (cur : str) (text : str)
  : list str :=
  match text with
  | [] => [reverse cur]
  | c :: text' =>
      match skip with
      | S n => split_keep separator n (c :: cur) text'
      | O =>
          if startswith separator text
          then reverse cur :: split_keep separator (length separator - 1) [c] text'
          else split_keep separator O (c :: cur) text'
      end
  end.

(** Modelled from the spec: [_split_text_with_regex] of the splitter
    library, which is not in the repository. The empty separator splits
    into single characters; empty pieces are dropped. *)
Definition _split_text_with_regex (text separator : str) : list str :=
  let splits :=
    match separator with
    | [] => (λ c, [c]) <$> text
    | _ => split_keep separator O [] text
    end in
  filter (λ s, s ≠ []) splits.

(** Modelled from the spec: the merging of the good splits gathered so
    far in [_split_text] of the splitter class, which is not in the
    repository. The separator is empty because separators are kept in
    the pieces. *)
Definition merge_good (_good_splits : list str) : result (list str) :=
  match _good_splits with
  | [] => inr []
  | _ => _merge_splits _good_splits []
  end.

(** Modelled from the spec: the [for s in splits] loop of [_split_text]
    of the splitter class, which is not in the repository. Pieces below
    [chunk_size] are gathered and merged; a longer piece is handed to
    [recurse], the call of [_split_text] with the finer separators, or
    kept as it is when there is no finer separator. *)
Fixpoint split_loop (recurse : option (str → result (list str)))
  (_good_splits : list str) (splits : list str) : result (list str) :=
  match splits with
  | [] => merge_good _good_splits
  | s :: splits' =>
      if decide (len s < chunk_size self)
      then split_loop recurse (_good_splits ++ [s]) splits'
      else
        merged_text ← merge_good _good_splits;
        other_info ←
          match recurse with
          | None => inr [s]
          | Some f => f s
          end;
        final_chunks ← split_loop recurse [] splits';
        inr (merged_text ++ other_info ++ final_chunks)
  end.

(** Modelled from the spec: [_split_text] of the splitter class, which is
    not in the repository. The separator used is the first of the list
    that is empty or occurs in [text], the last one when there is none;
    the separators after it are the finer ones. *)
Fixpoint _split_text (separators : list str) (text : str) {struct separators}
  : result (list str) :=
  match separators with
  | [] => inl (Exn IndexError (lit "list index out of range") None)
  | _s :: rest =>
      if decide (_s = []) then
        split_loop None [] (_split_text_with_regex text [])
      else if contains _s text then
        let recurse :=
          match rest with
          | [] => None
          | _ => Some (_split_text rest)
          end in
        split_loop recurse [] (_split_text_with_regex text _s)
      else
        match rest with
        | [] => split_loop None [] (_split_text_with_regex text _s)
        | _ => _split_text rest text
        end
  end.

(** Modelled from the spec: [split_text] of the splitter class, which is
    not in the repository. *)
Definition split_text (text : str) : result (list str) :=
  _split_text (separators self) text.

End Splitter.

End RecursiveCharacterTextSplitter.

(** ** [get_text_chunks] *)

Definition text_splitter : RecursiveCharacterTextSplitter.t :=
  {| RecursiveCharacterTextSplitter.chunk_size := 1000;
     RecursiveCharacterTextSplitter.chunk_overlap := 200;
     RecursiveCharacterTextSplitter.separators :=
       [ [newline; newline]; [newline]; lit " "; [] ] |}.

Definition get_text_chunks (text : str) : result (list str) :=
  reraise
    (if decide (strip text = []) then
       inl (Exn ValueError (lit "Input text is empty") None)
     else
       chunks ← RecursiveCharacterTextSplitter.split_text text_splitter text;
       let chunks := filter (λ chunk, len (strip chunk) > 50) chunks in
       if decide (chunks = []) then
         inl (Exn ValueError (lit "No valid text chunks created") None)
       else inr chunks)
    (λ e, (Exception, lit "Error splitting text: " ++ str_of e)).

(** ** The world outside the interpreter *)

(** A chat message handed to the completion service. [rag.py] only ever
    sends a single human message. *)
Inductive message :=
| HumanMessage (content : str).

(** The arguments of the [ChatGroq(...)] constructor. *)
Record ChatGroq := {
  api_key : str;
  model : str;
  temperature : Q;
  max_tokens : Z
}.

(** The arguments of the [HuggingFaceEmbeddings(...)] constructor: the
    embedding model an embeddings object stands for. *)
Record Embeddings := {
  embeddings_model : str;
  embeddings_device : str
}.

(** The services [rag.py] calls but does not implement. Each one is a
    function of its arguments; none of them can reach the file system of
    [World] other than through the operations defined below. *)
Class Collaborators := {
  (** an embedding *)
  vector : Type;
  (** [os.path.abspath(__file__)] of [rag.py] *)
  module_file : str;
  (** PyPDF2: from the bytes of a file, [PdfReader(path).pages] and for
      each page the outcome of [page.extract_text()] *)
  read_pdf : list N → result (list (result str));
  (** loading the model when [HuggingFaceEmbeddings(...)] is constructed *)
  load_embeddings : Embeddings → result unit;
  (** [embeddings.embed_documents(texts)] and [embeddings.embed_query(text)] *)
  embed_documents : Embeddings → list str → result (list vector);
  embed_query : Embeddings → str → result vector;
  (** the index's metric: smaller is nearer *)
  distance : vector → vector → Z;
  (** [ChatGroq(...).invoke(messages).content] *)
  chat_completion : ChatGroq → list message → result str
}.

(** Calls to the collaborators, in the order they were made. *)
Inductive call :=
| Call_PdfReader (pdf_path : str)
| Call_HuggingFaceEmbeddings (embeddings : Embeddings)
| Call_from_texts (texts : list str)
| Call_save_local (index_path : str)
| Call_load_local (index_path : str)
| Call_similarity_search (query : str) (k : Z)
| Call_invoke (llm : ChatGroq) (messages : list message).

Record Document := { page_content : str }.

Section Rag.
Context `{Collaborators}.

(** A FAISS store in memory: the embeddings object it was given and the
    indexed texts with their vectors. *)
Record FAISS := {
  embedding_function : Embeddings;
  docstore : list (str * vector)
}.

(** What a path of the file system holds: a file, or a saved index, which
    records the texts and vectors but not the embedding model. *)
Inductive node :=
| RegularFile (data : list N)
| IndexDir (entries : list (str * vector)).

Record World := {
  fs : gmap str node;
  environ : gmap str str;
  stdout : list str;
  calls : list call
}.

Definition set_fs (f : gmap str node) (w : World) : World :=
  {| fs := f; environ := environ w; stdout := stdout w; calls := calls w |}.

(** Statements of [rag.py]: a state transformer that returns or raises. *)
Definition M (A : Type) : Type := World → result A * World.

#[export] Instance M_ret : MRet M := λ A a w, (inr a, w).

#[export] Instance M_bind : MBind M := λ A B k m w,
  match m w with
  | (inl e, w') => (inl e, w')
  | (inr a, w') => k a w'
  end.

Definition raise {A} (e : exn) : M A := λ w, (inl e, w).

Definition lift {A} (r : result A) : M A := λ w, (r, w).

(** [try: body  except Exception as e: handler e] *)
Definition try_except {A} (body : M A) (handler : exn → M A) : M A := λ w,
  match body w with
  | (inl e, w') => handler e w'
  | (inr a, w') => (inr a, w')
  end.

(** [raise Exception(msg)] inside [except Exception as e] *)
Definition raise_from {A} (cls : exc_class) (msg : str) (e : exn) : M A :=
  raise (Exn cls msg (Some e)).

Definition add_call (c : call) (w : World) : World :=
  {| fs := fs w; environ := environ w; stdout := stdout w;
     calls := calls w ++ [c] |}.

Definition add_stdout (line : str) (w : World) : World :=
  {| fs := fs w; environ := environ w; stdout := stdout w ++ [line];
     calls := calls w |}.

Definition record_call (c : call) : M unit := λ w, (inr (), add_call c w).

Definition print (line : str) : M unit := λ w, (inr (), add_stdout line w).

(** The calls made between [w] and a later [w']. *)
Definition new_calls (w w' : World) : list call :=
  drop (length (calls w)) (calls w').

Fixpoint for_each {A} (l : list A) (body : A → M unit) : M unit :=
  match l with
  | [] => mret ()
  | x :: l' => body x;; for_each l' body
  end.

(** *** [os] *)

Definition sep : N := 47%N.

Definition is_sep (c : N) : bool := (c =? sep)%N.

Fixpoint drop_while (p : N → bool) (s : str) : str :=
  match s with
  | c :: s' => if p c then drop_while p s' else s
  | [] => []
  end.

(** [os.path.dirname] (POSIX) *)
Definition os_path_dirname (p : str) : str :=
  let head := reverse (drop_while (λ c, negb (is_sep c)) (reverse p)) in
  if forallb is_sep head then head
  else reverse (drop_while is_sep (reverse head)).

(** [os.path.join] (POSIX), two components *)
Definition os_path_join (a b : str) : str :=
  if startswith [sep] b then b
  else if decide (a = []) then b
  else if startswith [sep] (reverse a) then a ++ b
  else a ++ [sep] ++ b.

(** What is at [path], if anything. *)
Definition stat (path : str) : M (option node) := λ w, (inr (fs w !! path), w).

(** Put [n] at [path], replacing what was there. *)
Definition write_node (path : str) (n : node) : M unit := λ w,
  (inr (), set_fs (<[path := n]> (fs w)) w).

Definition os_path_exists (path : str) : M bool :=
  found ← stat path;
  mret (bool_decide (is_Some found)).

Definition os_getenv (name : str) : M (option str) := λ w,
  (inr (environ w !! name), w).

(** *** PyPDF2 *)

Definition PdfReader (pdf_path : str) : M (list (result str)) :=
  record_call (Call_PdfReader pdf_path);;
  found ← stat pdf_path;
  match found with
  | Some (RegularFile data) => lift (read_pdf data)
  | Some (IndexDir _) =>
      raise (Exn IsADirectoryError (lit "Is a directory: " ++ pdf_path) None)
  | None =>
      raise (Exn FileNotFoundError (lit "No such file or directory: " ++ pdf_path) None)
  end.

(** *** Embeddings and the vector store *)

Definition HuggingFaceEmbeddings (model_name device : str) : M Embeddings :=
  let embeddings :=
    {| embeddings_model := model_name; embeddings_device := device |} in
  record_call (Call_HuggingFaceEmbeddings embeddings);;
  lift (load_embeddings embeddings);;
  mret embeddings.

(** Modelled from the spec: [FAISS.from_texts] of the vector store
    library, the [build] of section 4.3: an index of the chunk texts and
    their embeddings, made in one shot. *)
Definition FAISS_from_texts (texts : list str) (embedding : Embeddings) : M FAISS :=
  record_call (Call_from_texts texts);;
  vectors ← lift (embed_documents embedding texts);
  mret {| embedding_function := embedding; docstore := zip texts vectors |}.

(** Modelled from the spec: [save_local] of the vector store library,
    the [persist] of section 4.3. It fails when a file that is not an
    index is in the way. *)
Definition FAISS_save_local (vector_store : FAISS) (index_path : str) : M unit :=
  record_call (Call_save_local index_path);;
  found ← stat index_path;
  match found with
  | Some (RegularFile _) =>
      raise (Exn FileExistsError (lit "File exists: " ++ index_path) None)
  | _ => write_node index_path (IndexDir (docstore vector_store))
  end.

(** Modelled from the spec: [load_local] of the vector store library,
    the [load] of section 4.3. The loaded store uses the embeddings
    object it is given. *)
Definition FAISS_load_local (index_path : str) (embeddings : Embeddings) : M FAISS :=
  record_call (Call_load_local index_path);;
  found ← stat index_path;
  match found with
  | Some (IndexDir entries) =>
      mret {| embedding_function := embeddings; docstore := entries |}
  | Some (RegularFile _) =>
      raise (Exn NotADirectoryError (lit "Not a directory: " ++ index_path) None)
  | None => raise (Exn RuntimeError (lit "could not open " ++ index_path) None)
  end.

(** The order of the search: [a] is at least as near to [query] as [b]. *)
Definition nearer (query : vector) (a b : str * vector) : Prop :=
  distance query a.2 ≤ distance query b.2.

#[export] Instance nearer_dec query a b : Decision (nearer query a b).
Proof. unfold nearer. apply _. Defined.

(** Modelled from the spec: the nearest-neighbour search of the vector
    store library, the [search] of section 4.3: the [k] entries nearest
    to [query], best first, and all entries when there are fewer than
    [k]. *)
Definition search (entries : list (str * vector)) (query : vector) (k : Z)
  : list (str * vector) :=
  take (Z.to_nat k) (merge_sort (nearer query) entries).

(** Modelled from the spec: [similarity_search] of the vector store
    library: the query is embedded with the store's embeddings object and
    the texts of the nearest entries are returned as documents. *)
Definition similarity_search (vector_store : FAISS) (query : str) (k : Z)
  : M (list Document) :=
  record_call (Call_similarity_search query k);;
  query_vector ← lift (embed_query (embedding_function vector_store) query);
  mret ((λ e, {| page_content := e.1 |})
          <$> search (docstore vector_store) query_vector k).

(** *** The completion service *)

Definition invoke (llm : ChatGroq) (messages : list message) : M str :=
  record_call (Call_invoke llm messages);;
  lift (chat_completion llm messages).

End Rag.

(** *** Prompt templates *)

Definition lbrace : N := 123%N.
Definition rbrace : N := 125%N.

(** The value given for [name] among the keyword arguments. *)
Fixpoint lookup_kwarg (name : str) (kwargs : list (str * str)) : option str :=
  match kwargs with
  | [] => None
  | (k, v) :: kwargs' => if decide (k = name) then Some v else lookup_kwarg name kwargs'
  end.

(** Modelled from the spec: formatting of a prompt template, which
    belongs to the prompt library and is not in the repository.
    Formatting replaces each [{name}] of the template by the value given
    for [name], as section 4.4 describes the fixed instruction template
    being filled with context and question; a doubled brace stands for a
    literal brace. [field] is the name being read while inside braces. *)
Fixpoint format_template (kwargs : list (str * str)) (field : option str)
  (template : str) : result str :=
  match template with
  | [] =>
      match field with
      | None => inr []
      | Some _ => inl (Exn ValueError (lit "expected '}' before end of string") None)
      end
  | c :: rest =>
      match field with
      | Some name =>
          if (c =? rbrace)%N then
            match lookup_kwarg name kwargs with
            | Some value => s ← format_template kwargs None rest; inr (value ++ s)
            | None => inl (Exn KeyError name None)
            end
          else format_template kwargs (Some (name ++ [c])) rest
      | None =>
          if (c =? lbrace)%N then
            match rest with
            | c' :: rest' =>
                if (c' =? lbrace)%N
                then s ← format_template kwargs None rest'; inr (lbrace :: s)
                else format_template kwargs (Some []) rest
            | [] => format_template kwargs (Some []) rest
            end
          else if (c =? rbrace)%N then
            match rest with
            | c' :: rest' =>
                if (c' =? rbrace)%N
                then s ← format_template kwargs None rest'; inr (rbrace :: s)
                else inl (Exn ValueError (lit "Single '}' encountered in format string") None)
            | [] => inl (Exn ValueError (lit "Single '}' encountered in format string") None)
            end
          else s ← format_template kwargs None rest; inr (c :: s)
      end
  end.

(** Modelled from the spec: [ChatPromptTemplate.from_template(template)]
    of the prompt library, which is not in the repository, formatted with
    [kwargs]: one human message holding the filled template. *)
Definition format_messages (template : str) (kwargs : list (str * str))
  : result (list message) :=
  text ← format_template kwargs None template;
  inr [HumanMessage text].

(** ** [rag.py] *)

Definition AVAILABLE_MODELS : list (str * str) :=
  [ (lit "llama-3.3-70b-versatile", lit "Meta Llama 3.3 70B (Production)");
    (lit "llama-3.1-8b-instant", lit "Meta Llama 3.1 8B (Production)");
    (lit "gemma2-9b-it", lit "Google Gemma 2 9B (Production)");
    (lit "deepseek-r1-distill-llama-70b", lit "DeepSeek R1 Distill 70B (Preview)");
    (lit "qwen/qwen3-32b", lit "Alibaba Qwen 3 32B (Preview)");
    (lit "moonshotai/kimi-k2-instruct", lit "Moonshot AI Kimi K2 (Preview)") ].

(** The default of the [model_name] parameter of both query functions. *)
Definition default_model_name : str := lit "llama-3.3-70b-versatile".

(** The triple-quoted prompt text, which is the same in both query
    functions, cut at its two placeholders. *)
Definition prompt_head : str :=
  [newline]
  ++ lit "        Answer the question as detailed as possible from the provided context. "
  ++ [newline]
  ++ lit "        If the answer is not in the provided context, just say "
  ++ [dquote] ++ lit "Answer is not available in the context" ++ [dquote]
  ++ lit ". " ++ [newline]
  ++ lit "        Don't provide incorrect information." ++ [newline]
  ++ lit "        " ++ [newline]
  ++ lit "        Context: ".

Definition prompt_middle : str :=
  [newline] ++ lit "        Question: ".

Definition prompt_tail : str :=
  [newline] ++ lit "        " ++ [newline]
  ++ lit "        Answer:" ++ [newline]
  ++ lit "        ".

(** The argument of [ChatPromptTemplate.from_template] in
    [process_question]. *)
Definition chain_template : str :=
  prompt_head ++ lit "{context}" ++ prompt_middle ++ lit "{input}" ++ prompt_tail.

(** The f-string of [process_question_simple]. *)
Definition prompt_text (context user_question : str) : str :=
  prompt_head ++ context ++ prompt_middle ++ user_question ++ prompt_tail.

(** [str(n)] for a length *)
Definition str_of_nat (n : nat) : str := lit (pretty n).

Section RagFunctions.
Context `{Collaborators}.

(** The storage location of the index, as each of [get_vector_store],
    [process_question] and [process_question_simple] computes it. *)
Definition storage_location : str :=
  os_path_join (os_path_dirname module_file) (lit "faiss_index").

(** The embeddings object all three functions construct. *)
Definition all_MiniLM : Embeddings :=
  {| embeddings_model := lit "sentence-transformers/all-MiniLM-L6-v2";
     embeddings_device := lit "cpu" |}.

(** The [for page in pdf_reader.pages] loop. *)
Fixpoint extract_pages (pages : list (result str)) (text : str) : result str :=
  match pages with
  | [] => inr text
  | page :: pages' =>
      extracted_text ← page;
      if decide (extracted_text = []) then extract_pages pages' text
      else extract_pages pages' (text ++ extracted_text ++ [newline])
  end.

(** The body of the [for pdf_path in pdf_paths] loop. *)
Definition read_one_pdf (pdf_path : str) (text : str) : M str :=
  try_except
    (found ← os_path_exists pdf_path;
     (if negb found
      then raise (Exn FileNotFoundError (lit "PDF file not found: " ++ pdf_path) None)
      else mret ());;
     pages ← PdfReader pdf_path;
     lift (extract_pages pages text))
    (λ e, raise_from Exception
            (lit "Error reading PDF " ++ pdf_path ++ lit ": " ++ str_of e) e).

Fixpoint read_pdfs (pdf_paths : list str) (text : str) : M str :=
  match pdf_paths with
  | [] => mret text
  | pdf_path :: pdf_paths' =>
      text ← read_one_pdf pdf_path text;
      read_pdfs pdf_paths' text
  end.

Definition get_pdf_text (pdf_paths : list str) : M str :=
  text ← read_pdfs pdf_paths [];
  (if decide (strip text = [])
   then raise (Exn Exception (lit "No text could be extracted from the provided PDFs") None)
   else mret ());;
  mret text.

Definition get_vector_store (text_chunks : list str) : M FAISS :=
  try_except
    ((if decide (text_chunks = [])
      then raise (Exn ValueError (lit "No text chunks provided") None)
      else mret ());;
     embeddings ← HuggingFaceEmbeddings
                    (lit "sentence-transformers/all-MiniLM-L6-v2") (lit "cpu");
     vector_store ← FAISS_from_texts text_chunks embeddings;
     let save_dir := os_path_dirname module_file in
     let index_path := os_path_join save_dir (lit "faiss_index") in
     FAISS_save_local vector_store index_path;;
     print (lit "Vector store saved successfully at: " ++ index_path);;
     print (lit "Number of documents indexed: " ++ str_of_nat (length text_chunks));;
     mret vector_store)
    (λ e, raise_from Exception (lit "Error creating vector store: " ++ str_of e) e).

(** [os.getenv] gives [None] for an unset variable; [not groq_api_key]
    also holds for the empty string. *)
Definition falsy (value : option str) : bool :=
  match value with
  | None | Some [] => true
  | Some _ => false
  end.

(** Modelled from the spec: [vector_store.as_retriever] of the vector
    store library, which is not in the repository, for a similarity
    search with [k] results: the duplicate of the index search that the
    chain-composed mode of section 4.4 performs internally. *)
Definition as_retriever (vector_store : FAISS) (k : Z) : str → M (list Document) :=
  λ query, similarity_search vector_store query k.

(** Modelled from the spec: [create_stuff_documents_chain] of the chain
    library, which is not in the repository. Per section 4.4 the contents
    of the documents are joined with blank lines into the context, the
    template is filled with context and question, and the model's reply
    is the answer. *)
Definition create_stuff_documents_chain (llm : ChatGroq) (prompt : str)
  (input : str) (context : list Document) : M str :=
  let context := join [newline; newline] (page_content <$> context) in
  messages ← lift (format_messages prompt
                     [(lit "context", context); (lit "input", input)]);
  invoke llm messages.

(** What invoking a retrieval chain returns; [rag.py] reads the answer. *)
Record chain_response := {
  response_input : str;
  response_context : list Document;
  response_answer : str
}.

(** Modelled from the spec: [create_retrieval_chain] of the chain
    library, which is not in the repository. Per section 4.4 the
    chain-composed mode performs retrieval and then synthesis as one
    call. *)
Definition create_retrieval_chain (retriever : str → M (list Document))
  (document_chain : str → list Document → M str) (input : str) : M chain_response :=
  context ← retriever input;
  answer ← document_chain input context;
  mret {| response_input := input; response_context := context;
          response_answer := answer |}.

(** The block under [# Validate model name] of [process_question]: an
    unknown model is reported on standard output and then used anyway. *)
Definition validate_model_name (model_name : str) : M unit :=
  if decide (model_name ∈ AVAILABLE_MODELS.*1) then mret ()
  else
    print (lit "Warning: Model " ++ model_name
           ++ lit " not in known models list. Available models:");;
    for_each AVAILABLE_MODELS
      (λ '(model_id, description),
         print (lit "  - " ++ model_id ++ lit ": " ++ description));;
    print (lit "Proceeding with the provided model name...").

Definition process_question (user_question model_name : str) : M str :=
  try_except
    ((if decide (strip user_question = [])
      then raise (Exn ValueError (lit "Question cannot be empty") None)
      else mret ());;
     validate_model_name model_name;;
     embeddings ← HuggingFaceEmbeddings
                    (lit "sentence-transformers/all-MiniLM-L6-v2") (lit "cpu");
     let current_dir := os_path_dirname module_file in
     let index_path := os_path_join current_dir (lit "faiss_index") in
     found ← os_path_exists index_path;
     (if negb found
      then raise (Exn FileNotFoundError
                    (lit "Vector store not found at " ++ index_path
                     ++ lit ". Please run the PDF processing first.") None)
      else mret ());;
     vector_store ← FAISS_load_local index_path embeddings;
     groq_api_key ← os_getenv (lit "GROQ_API_KEY");
     (if falsy groq_api_key
      then raise (Exn Exception (lit "GROQ_API_KEY not found in environment variables") None)
      else mret ());;
     let model := {| api_key := default [] groq_api_key; model := model_name;
                     temperature := 3 # 10; max_tokens := 4096 |} in
     let prompt := chain_template in
     let retriever := as_retriever vector_store 4 in
     let document_chain := create_stuff_documents_chain model prompt in
     let retrieval_chain := create_retrieval_chain retriever document_chain in
     response ← retrieval_chain user_question;
     mret (response_answer response))
    (λ e, raise_from Exception (lit "Error processing question: " ++ str_of e) e).

Definition process_question_simple (user_question model_name : str) : M str :=
  try_except
    ((if decide (strip user_question = [])
      then raise (Exn ValueError (lit "Question cannot be empty") None)
      else mret ());;
     embeddings ← HuggingFaceEmbeddings
                    (lit "sentence-transformers/all-MiniLM-L6-v2") (lit "cpu");
     let current_dir := os_path_dirname module_file in
     let index_path := os_path_join current_dir (lit "faiss_index") in
     found ← os_path_exists index_path;
     (if negb found
      then raise (Exn FileNotFoundError
                    (lit "Vector store not found at " ++ index_path
                     ++ lit ". Please run the PDF processing first.") None)
      else mret ());;
     vector_store ← FAISS_load_local index_path embeddings;
     docs ← similarity_search vector_store user_question 4;
     if decide (docs = []) then
       mret (lit "No relevant documents found for your question.")
     else
       let context := join [newline; newline] (page_content <$> docs) in
       groq_api_key ← os_getenv (lit "GROQ_API_KEY");
       (if falsy groq_api_key
        then raise (Exn Exception (lit "GROQ_API_KEY not found in environment variables") None)
        else mret ());;
       let model := {| api_key := default [] groq_api_key; model := model_name;
                       temperature := 3 # 10; max_tokens := 4096 |} in
       let prompt_text := prompt_text context user_question in
       invoke model [HumanMessage prompt_text])
    (λ e, raise_from Exception (lit "Error processing question: " ++ str_of e) e).

(** The ingestion run that [main] describes: extract, chunk, then build
    and save the index. *)
Definition ingest (pdf_paths : list str) : M FAISS :=
  raw_text ← get_pdf_text pdf_paths;
  text_chunks ← lift (get_text_chunks raw_text);
  get_vector_store text_chunks.

End RagFunctions.

(** ** The remaining functions of [rag.py] *)

Section RagTools.
Context `{Collaborators}.


Definition test_api_connection (model_name : str) : M (bool * str) :=
  try_except
    (groq_api_key ← os_getenv (lit "GROQ_API_KEY");
     if falsy groq_api_key then
       mret (false, lit "GROQ_API_KEY not found in environment variables")
     else
       let model := {| api_key := default [] groq_api_key; model := model_name;
                       temperature := 3 # 10; max_tokens := 50 |} in
       response ← invoke model
                    [HumanMessage
                       (lit "Hello, this is a test. Please respond with 'API working correctly.'")];
       mret (true, lit "API working. Response: " ++ take 100 response))
    (λ e, mret (false, lit "API test failed: " ++ str_of e)).


End RagTools.

(** ** [notegen.py]: [clean_text_for_json] *)

Definition backslash : N := 92%N.
Definition space : N := 32%N.

(** [text.replace(old, new)] for an [old] of one character *)
Definition str_replace (old : N) (new : str) (text : str) : str :=
  c ← text; if (c =? old)%N then new else [c].

(** [re.sub(r'\s+', ' ', text)]: every maximal run of whitespace becomes
    one space. [in_run] tells that the previous character was
    whitespace. *)
Fixpoint sub_whitespace (in_run : bool) (text : str) : str :=
  match text with
  | [] => []
  | c :: text' =>
      if isspace c then
        if in_run then sub_whitespace true text'
        else space :: sub_whitespace true text'
      else c :: sub_whitespace false text'
  end.

(** [re.sub(r'[^\x20-\x7E]', ' ', text)] *)
Definition sub_non_printable (text : str) : str :=
  (λ c, if (32 <=? c)%N && (c <=? 126)%N then c else space) <$> text.

Definition clean_text_for_json (text : str) : str :=
  if decide (text = []) then []
  else
    let text := str_replace backslash [backslash; backslash] text in
    let text := str_replace dquote [backslash; dquote] text in
    let text := str_replace newline [space] text in
    let text := str_replace 13%N [space] text in
    let text := str_replace 9%N [space] text in
    let text := sub_whitespace false text in
    let text := strip text in
    let text := sub_non_printable text in
    text.

(** * Vocabulary of the statements *)

(** ** The splitter *)

Module SplitterSpec.
Import RecursiveCharacterTextSplitter.

Definition total_len (docs : list str) : Z := foldr (λ d acc, len d + acc) 0 docs.

Section Invariants.
Variable self : t.

(** A chunk is within the size bound. *)
Definition fits (d : str) : Prop := len d ≤ chunk_size self.

(** A piece is a good split: strictly shorter than [chunk_size]. *)
Definition small (s : str) : Prop := len s < chunk_size self.

(** Invariant of the loop of [_merge_splits] for an empty separator:
    the chunks made so far fit, [total] is the length of the pieces of
    the chunk being built, and that chunk fits as well. *)
Definition merge_inv (st : list str * list str * Z) : Prop :=
  let '(docs, current_doc, total) := st in
  Forall fits docs ∧ total = total_len current_doc ∧ total ≤ chunk_size self.

(** The recursive call returns, with chunks that fit. *)
Definition recurse_ok (recurse : option (str → result (list str))) : Prop :=
  match recurse with
  | Some f => ∀ s, ∃ r, f s = inr r ∧ Forall fits r
  | None => True
  end.

End Invariants.
End SplitterSpec.

(** ** The chunker *)

Definition splitting_error (e : exn) : exn :=
  Exn Exception (lit "Error splitting text: " ++ str_of e) (Some e).

Definition empty_input : exn := Exn ValueError (lit "Input text is empty") None.

Definition no_valid_chunks : exn :=
  Exn ValueError (lit "No valid text chunks created") None.

(** The test of the list comprehension of [get_text_chunks]. *)
Definition long_enough (chunk : str) : Prop := len (strip chunk) > 50.

(** ** Queries and ingestion *)


Definition api_key_name : str := lit "GROQ_API_KEY".

Definition is_save_local (c : call) : Prop :=
  match c with Call_save_local _ => True | _ => False end.

#[global] Instance is_save_local_dec c : Decision (is_save_local c).
Proof. destruct c; apply _. Defined.

Definition is_invoke (c : call) : Prop :=
  match c with Call_invoke _ _ => True | _ => False end.

#[global] Instance is_invoke_dec c : Decision (is_invoke c).
Proof. destruct c; apply _. Defined.

Section Vocabulary.
Context `{Collaborators}.

(** [raise Exception(prefix + str(e))] while handling [e]. *)
Definition wrapped (prefix : str) (e : exn) : exn :=
  Exn Exception (prefix ++ str_of e) (Some e).

Definition question_error (e : exn) : exn :=
  wrapped (lit "Error processing question: ") e.

Definition store_error (e : exn) : exn :=
  wrapped (lit "Error creating vector store: ") e.

Definition empty_question : exn :=
  Exn ValueError (lit "Question cannot be empty") None.

Definition index_not_found : exn :=
  Exn FileNotFoundError
    (lit "Vector store not found at " ++ storage_location
     ++ lit ". Please run the PDF processing first.") None.

Definition missing_api_key : exn :=
  Exn Exception (lit "GROQ_API_KEY not found in environment variables") None.

Definition no_documents_answer : str :=
  lit "No relevant documents found for your question.".

Definition hf_call : call := Call_HuggingFaceEmbeddings all_MiniLM.

(** The store [load_local] gives either query function when [entries] are
    saved at the storage location. *)
Definition loaded (entries : list (str * vector)) : FAISS :=
  {| embedding_function := all_MiniLM; docstore := entries |}.

Definition llm_for (key : option str) (model_name : str) : ChatGroq :=
  {| api_key := default [] key; model := model_name;
     temperature := 3 # 10; max_tokens := 4096 |}.

(** What [similarity_search] returns for [query] on the loaded store,
    with the [k] both query functions pass. *)
Definition retrieved (entries : list (str * vector)) (query : str)
  : result (list Document) :=
  query_vector ← embed_query all_MiniLM query;
  inr ((λ e, {| page_content := e.1 |}) <$> search entries query_vector 4).

Definition context_block (docs : list Document) : str :=
  join [newline; newline] (page_content <$> docs).

(** Result and collaborator calls of the final synthesis step. *)
Definition synthesis (key : option str) (user_question model_name : str)
  (docs : list Document) (before : list call) : result str * list call :=
  let messages := [HumanMessage (prompt_text (context_block docs) user_question)] in
  let llm := llm_for key model_name in
  (match chat_completion llm messages with
   | inl e => inl (question_error e)
   | inr answer => inr answer
   end, before ++ [Call_invoke llm messages]).

(** Result and collaborator calls of [process_question], from what is at
    the storage location and the value of [GROQ_API_KEY]. It is shown
    below to be what [process_question] does. *)
Definition chain_outcome (user_question model_name : str)
  (index : option node) (key : option str) : result str * list call :=
  if decide (strip user_question = []) then (inl (question_error empty_question), [])
  else
    match load_embeddings all_MiniLM with
    | inl e => (inl (question_error e), [hf_call])
    | inr _ =>
        match index with
        | None => (inl (question_error index_not_found), [hf_call])
        | Some (RegularFile _) =>
            (inl (question_error
                    (Exn NotADirectoryError (lit "Not a directory: " ++ storage_location) None)),
             [hf_call; Call_load_local storage_location])
        | Some (IndexDir entries) =>
            let before := [hf_call; Call_load_local storage_location] in
            if falsy key then (inl (question_error missing_api_key), before)
            else
              let before := before ++ [Call_similarity_search user_question 4] in
              match retrieved entries user_question with
              | inl e => (inl (question_error e), before)
              | inr docs => synthesis key user_question model_name docs before
              end
        end
    end.

(** The same for [process_question_simple]. *)
Definition simple_outcome (user_question model_name : str)
  (index : option node) (key : option str) : result str * list call :=
  if decide (strip user_question = []) then (inl (question_error empty_question), [])
  else
    match load_embeddings all_MiniLM with
    | inl e => (inl (question_error e), [hf_call])
    | inr _ =>
        match index with
        | None => (inl (question_error index_not_found), [hf_call])
        | Some (RegularFile _) =>
            (inl (question_error
                    (Exn NotADirectoryError (lit "Not a directory: " ++ storage_location) None)),
             [hf_call; Call_load_local storage_location])
        | Some (IndexDir entries) =>
            let before := [hf_call; Call_load_local storage_location;
                           Call_similarity_search user_question 4] in
            match retrieved entries user_question with
            | inl e => (inl (question_error e), before)
            | inr docs =>
                if decide (docs = []) then (inr no_documents_answer, before)
                else if falsy key then (inl (question_error missing_api_key), before)
                else synthesis key user_question model_name docs before
            end
        end
    end.

Definition from_texts_call (text_chunks : list str) : list call :=
  [hf_call; Call_from_texts text_chunks].

(** Result, collaborator calls and written entries of [get_vector_store],
    from what is at the storage location. *)
Definition store_outcome (text_chunks : list str) (index : option node)
  : result FAISS * list call * option (list (str * vector)) :=
  if decide (text_chunks = []) then
    (inl (store_error (Exn ValueError (lit "No text chunks provided") None)), [], None)
  else
    match load_embeddings all_MiniLM with
    | inl e => (inl (store_error e), [hf_call], None)
    | inr _ =>
        match embed_documents all_MiniLM text_chunks with
        | inl e => (inl (store_error e), from_texts_call text_chunks, None)
        | inr vectors =>
            let calls := from_texts_call text_chunks ++ [Call_save_local storage_location] in
            match index with
            | Some (RegularFile _) =>
                (inl (store_error
                        (Exn FileExistsError (lit "File exists: " ++ storage_location) None)),
                 calls, None)
            | _ => (inr (loaded (zip text_chunks vectors)), calls,
                    Some (zip text_chunks vectors))
            end
        end
    end.

Definition written (w : World) (index : option (list (str * vector))) : gmap str node :=
  match index with
  | Some entries => <[storage_location := IndexDir entries]> (fs w)
  | None => fs w
  end.

(** A statement is quiet when it returns and touches nothing but
    standard output. *)
Definition quiet (m : M ()) : Prop :=
  ∀ w, ∃ w', m w = (inr (), w')
             ∧ fs w' = fs w ∧ environ w' = environ w ∧ calls w' = calls w.

(** A statement reads only when it leaves files and environment as they
    are and makes no call to [save_local]. *)
Definition reads_only {A} (m : M A) : Prop :=
  ∀ w, fs (m w).2 = fs w ∧ environ (m w).2 = environ w
       ∧ ∃ new, calls (m w).2 = calls w ++ new ∧ Forall (λ c, ¬ is_save_local c) new.

(** Every stage before [save_local] succeeded. *)
Definition upstream_ok (pdf_paths : list str) (w : World) : Prop :=
  ∃ raw_text w1 text_chunks vectors,
    get_pdf_text pdf_paths w = (inr raw_text, w1)
    ∧ get_text_chunks raw_text = inr text_chunks
    ∧ load_embeddings all_MiniLM = inr ()
    ∧ embed_documents all_MiniLM text_chunks = inr vectors.

(** An answer is synthesized when it is what the completion service
    replied to the last call made. *)
Definition synthesized (new : list call) (answer : str) : Prop :=
  ∃ llm messages,
    last new = Some (Call_invoke llm messages)
    ∧ chat_completion llm messages = inr answer.

End Vocabulary.

(** ** A concrete setting

    Collaborators that can be run: a PDF reader that takes the bytes of a
    file for the text of its single page, an embedding that maps a text
    to its length, and a completion service with a fixed reply. *)
Definition demo : Collaborators := {|
  vector := Z;
  module_file := lit "/srv/app/rag/rag.py";
  read_pdf := λ data, inr [inr data];
  load_embeddings := λ _, inr ();
  embed_documents := λ _ texts, inr (len <$> texts);
  embed_query := λ _ query, inr (len query);
  distance := λ a b, Z.abs (a - b);
  chat_completion := λ _ _, inr (lit "Chlorophyll.")
|}.

Definition demo_question : str := lit "What converts sunlight into energy?".

Definition demo_world (files : gmap str (@node demo)) : @World demo :=
  {| fs := files; environ := {[ api_key_name := lit "gsk" ]};
     stdout := []; calls := [] |}.

(** Ingestion has never been run. *)
Definition no_index_world : @World demo := demo_world ∅.

(** An index without entries is at the storage location. *)
Definition empty_index_world : @World demo :=
  demo_world {[ @storage_location demo := IndexDir [] ]}.

Definition demo_chunk : str :=
  lit "Chlorophyll in the leaves converts sunlight into chemical energy.".

(** An index with one entry is at the storage location. *)
Definition indexed_world : @World demo :=
  demo_world {[ @storage_location demo := IndexDir [(demo_chunk, 65 : @vector demo)] ]}.

(** A PDF file is on disk and ingestion has not been run. *)
Definition pdf_world : @World demo :=
  demo_world {[ lit "/srv/notes.pdf" := RegularFile demo_chunk ]}.
(** ** Vocabulary for the further properties *)

Section MoreVocabulary.
Context `{Collaborators}.

(** What the pages of one file add to the text: every page that is not
    empty, followed by a newline. *)
Definition page_texts (pages : list str) : str :=
  page ← pages; if decide (page = []) then [] else page ++ [newline].

(** [pdf_path] is a file that the PDF reader reads into [pages]. *)
Definition readable (w : World) (pdf_path : str) (pages : list str) : Prop :=
  ∃ data, fs w !! pdf_path = Some (RegularFile data)
          ∧ read_pdf data = inr (inr <$> pages).

(** The world after the calls [cs]. *)
Definition add_calls (cs : list call) (w : World) : World :=
  {| fs := fs w; environ := environ w; stdout := stdout w;
     calls := calls w ++ cs |}.

(** The world after the lines [lines] were printed. *)
Definition add_lines (lines : list str) (w : World) : World :=
  {| fs := fs w; environ := environ w; stdout := stdout w ++ lines;
     calls := calls w |}.

Definition reading_error (pdf_path : str) (e : exn) : exn :=
  Exn Exception (lit "Error reading PDF " ++ pdf_path ++ lit ": " ++ str_of e) (Some e).

Definition pdf_not_found (pdf_path : str) : exn :=
  Exn FileNotFoundError (lit "PDF file not found: " ++ pdf_path) None.

Definition no_text_extracted : exn :=
  Exn Exception (lit "No text could be extracted from the provided PDFs") None.

End MoreVocabulary.

(** A file without text is on disk. *)
Definition blank_pdf_world : @World demo :=
  demo_world {[ lit "/srv/scan.pdf" := RegularFile [] ]}.

(** An index with one entry is at the storage location and
    [GROQ_API_KEY] is not set. *)
Definition keyless_world : @World demo :=
  {| fs := {[ @storage_location demo := IndexDir [(demo_chunk, 65 : @vector demo)] ]};
     environ := ∅; stdout := []; calls := [] |}.

Section QueryVocabulary.
Context `{Collaborators}.

(** What [process_question] prints for a model name: nothing when the
    name is one of [AVAILABLE_MODELS], and otherwise the warning, one
    line per available model and the notice that it goes on. *)
Definition model_warning (model_name : str) : list str :=
  if decide (model_name ∈ AVAILABLE_MODELS.*1) then []
  else
    [lit "Warning: Model " ++ model_name
     ++ lit " not in known models list. Available models:"]
    ++ ((λ p, lit "  - " ++ p.1 ++ lit ": " ++ p.2) <$> AVAILABLE_MODELS)
    ++ [lit "Proceeding with the provided model name..."].

(** The two lines [get_vector_store] prints once the index is saved. *)
Definition saved_lines (text_chunks : list str) : list str :=
  [lit "Vector store saved successfully at: " ++ storage_location;
   lit "Number of documents indexed: " ++ str_of_nat (length text_chunks)].

Definition no_text_chunks : exn :=
  Exn ValueError (lit "No text chunks provided") None.

(** A call that a query may make. *)
Definition is_query_call (c : call) : Prop :=
  match c with
  | Call_HuggingFaceEmbeddings _ | Call_load_local _
  | Call_similarity_search _ _ | Call_invoke _ _ => True
  | _ => False
  end.

End QueryVocabulary.

Section ToolVocabulary.
Context `{Collaborators}.

Definition test_prompt : str :=
  lit "Hello, this is a test. Please respond with 'API working correctly.'".

(** The model [test_api_connection] constructs. *)
Definition test_llm (key : option str) (model_name : str) : ChatGroq :=
  {| api_key := default [] key; model := model_name;
     temperature := 3 # 10; max_tokens := 50 |}.

(** What [test_api_connection] returns and the calls it makes, from the
    value of [GROQ_API_KEY]. *)
Definition api_test (key : option str) (model_name : str) : (bool * str) * list call :=
  if falsy key then
    ((false, lit "GROQ_API_KEY not found in environment variables"), [])
  else
    (match chat_completion (test_llm key model_name) [HumanMessage test_prompt] with
     | inl e => (false, lit "API test failed: " ++ str_of e)
     | inr reply => (true, lit "API working. Response: " ++ take 100 reply)
     end,
     [Call_invoke (test_llm key model_name) [HumanMessage test_prompt]]).




End ToolVocabulary.

(** *** Vocabulary for [clean_text_for_json] *)

(** The characters [\x20] to [\x7E]. *)
Definition printable (c : N) : Prop := (32 ≤ c ≤ 126)%N.

(** Inside a JSON string literal: every backslash is followed by a
    backslash or a double quote, which it escapes, and no double quote
    stands unescaped. [escaped] tells that the previous character was
    an escaping backslash. *)
Fixpoint well_escaped (escaped : bool) (s : str) : bool :=
  match s with
  | [] => negb escaped
  | c :: s' =>
      if escaped then ((c =? backslash) || (c =? dquote))%N && well_escaped false s'
      else if (c =? backslash)%N then well_escaped true s'
      else negb (c =? dquote)%N && well_escaped false s'
  end.

(** The first two replacements of [clean_text_for_json]. *)
Definition escape (text : str) : str :=
  str_replace dquote [backslash; dquote]
    (str_replace backslash [backslash; backslash] text).

(** Nothing but whitespace. *)
Definition blank (s : str) : Prop := Forall (λ c, isspace c = true) s.

(** * Properties *)

(** ** Strings *)

Lemma lstrip_length (s : str) : (length (lstrip s) ≤ length s)%nat.
Proof.
  induction s as [|c s IH]; simpl; [lia|].
  destruct (isspace c); simpl; lia.
Qed.

Lemma strip_length (s : str) : (length (strip s) ≤ length s)%nat.
Proof.
  unfold strip, rstrip. rewrite length_reverse.
  etrans; [apply lstrip_length|]. rewrite length_reverse. apply lstrip_length.
Qed.

Lemma len_strip (s : str) : len (strip s) ≤ len s.
Proof. unfold len. pose proof (strip_length s). lia. Qed.

Lemma len_nonneg {A} (l : list A) : 0 ≤ len l.
Proof. unfold len. lia. Qed.

Lemma len_app {A} (l k : list A) : len (l ++ k) = len l + len k.
Proof. unfold len. rewrite length_app. lia. Qed.

(** ** The splitter stays within [chunk_size] and never raises *)

Module SplitterFacts.
Import RecursiveCharacterTextSplitter SplitterSpec.

Lemma total_len_nonneg docs : 0 ≤ total_len docs.
Proof. induction docs as [|d docs IH]; simpl; [lia|]. pose proof (len_nonneg d). lia. Qed.

Lemma total_len_snoc docs d : total_len (docs ++ [d]) = total_len docs + len d.
Proof. induction docs as [|d' docs IH]; simpl; lia. Qed.

Lemma len_join_nil docs : len (join [] docs) = total_len docs.
Proof.
  induction docs as [|d docs IH]; [done|].
  destruct docs as [|d' docs]; [simpl; lia|].
  change (join [] (d :: d' :: docs)) with (d ++ [] ++ join [] (d' :: docs)).
  rewrite !len_app, IH. simpl. unfold len at 2. simpl. lia.
Qed.

Section Bound.
Variable self : t.
Hypothesis overlap_nonneg : 0 ≤ chunk_overlap self.
Hypothesis size_gt_1 : 1 < chunk_size self.

Local Abbreviation fits := (fits self).
Local Abbreviation small := (small self).
Local Abbreviation merge_inv := (merge_inv self).
Local Abbreviation recurse_ok := (recurse_ok self).

Lemma _join_docs_fits docs doc :
  _join_docs docs [] = Some doc → total_len docs ≤ chunk_size self → fits doc.
Proof.
  unfold _join_docs, fits. intros H Hle. case_decide; [done|].
  injection H as <-. pose proof (len_strip (join [] docs)).
  rewrite len_join_nil in *. lia.
Qed.

Lemma pop_front_ok _len current_doc :
  ∀ total, total = total_len current_doc →
  ∃ total' current_doc',
    pop_front self [] _len total current_doc = inr (total', current_doc')
    ∧ total' = total_len current_doc'
    ∧ (total' + _len ≤ chunk_size self ∨ total' = 0).
Proof.
  induction current_doc as [|d0 tl IH]; intros total Ht; simpl.
  - subst total. simpl. case_decide as Hc.
    + exfalso. unfold sep_if in Hc. lia.
    + eexists _, _. split; [done|]. simpl. auto.
  - case_decide as Hc.
    + apply IH. subst total. simpl. unfold sep_if.
      change (len (@nil N)) with 0. destruct (bool_decide _); lia.
    + eexists _, _. split; [done|]. split; [done|].
      pose proof (total_len_nonneg (d0 :: tl)).
      unfold sep_if in Hc. change (len (@nil N)) with 0 in Hc.
      repeat case_bool_decide; lia.
Qed.

Lemma merge_step_ok st d :
  merge_inv st → fits d →
  ∃ st', merge_step self [] st d = inr st' ∧ merge_inv st'.
Proof.
  destruct st as [[docs current_doc] total]. intros (Hdocs & Ht & Hle) Hd.
  unfold fits in Hd. unfold merge_step.
  assert (Hsep : ∀ b, sep_if b [] = 0) by (by intros []).
  rewrite !Hsep.
  assert (Hfin : ∀ docs' cur' total',
    Forall fits docs' → total' = total_len cur' →
    (total' + len d ≤ chunk_size self ∨ total' = 0) →
    merge_inv (docs', cur' ++ [d], total' + (len d + 0))).
  { intros docs' cur' total' ? -> ?. split_and!; [done| |lia].
    rewrite total_len_snoc. lia. }
  case_decide as Hc.
  - case_decide as Hne.
    + destruct (pop_front_ok (len d) current_doc total Ht)
        as (total' & cur' & -> & Ht' & Hroom).
      simpl. eexists. split; [done|]. rewrite Hsep. apply Hfin; [|done..].
      destruct (_join_docs current_doc []) as [doc|] eqn:Hj; [|done].
      apply Forall_app. split; [done|]. apply Forall_singleton.
      eapply _join_docs_fits; [done|lia].
    + simpl. eexists. split; [done|]. rewrite Hsep. apply Hfin; [done..|].
      right. destruct current_doc; [simpl in Ht; lia|].
      unfold len in Hne. simpl in Hne. lia.
  - simpl. eexists. split; [done|]. rewrite Hsep. apply Hfin; [done..|]. lia.
Qed.

Lemma merge_loop_ok splits :
  ∀ st, merge_inv st → Forall fits splits →
  ∃ st', merge_loop self [] st splits = inr st' ∧ merge_inv st'.
Proof.
  induction splits as [|d splits IH]; intros st Hst Hall; simpl.
  - eauto.
  - apply Forall_cons in Hall as [Hd Hall].
    destruct (merge_step_ok st d Hst Hd) as (st' & -> & Hst'). simpl.
    by apply IH.
Qed.

Lemma _merge_splits_ok splits :
  Forall fits splits →
  ∃ docs, _merge_splits self splits [] = inr docs ∧ Forall fits docs.
Proof.
  intros Hall. unfold _merge_splits.
  destruct (merge_loop_ok splits ([], [], 0)) as ([[docs cur] total] & -> & Hinv).
  { split_and!; [constructor|done|lia]. }
  { done. }
  simpl. destruct Hinv as (Hdocs & Ht & Hle). eexists. split; [done|].
  destruct (_join_docs cur []) as [doc|] eqn:Hj; [|done].
  apply Forall_app. split; [done|]. apply Forall_singleton.
  eapply _join_docs_fits; [done|lia].
Qed.

Lemma small_fits s : small s → fits s.
Proof. unfold small, fits. lia. Qed.

Lemma split_loop_ok recurse splits :
  recurse_ok recurse →
  (recurse = None → Forall small splits) →
  ∀ _good_splits, Forall small _good_splits →
  ∃ r, split_loop self recurse _good_splits splits = inr r ∧ Forall fits r.
Proof.
  intros Hrec.
  assert (Hflush : ∀ good, Forall small good →
    ∃ r, merge_good self good = inr r ∧ Forall fits r).
  { intros good Hgood. destruct good as [|g good]; [by eexists|].
    apply _merge_splits_ok. eapply Forall_impl; [done|]. apply small_fits. }
  induction splits as [|s splits IH]; intros Hnone good Hgood; simpl.
  - by apply Hflush.
  - case_decide as Hs.
    + apply IH.
      * intros ->. specialize (Hnone eq_refl). by apply Forall_cons in Hnone as [_ ?].
      * apply Forall_app. split; [done|]. by apply Forall_singleton.
    + destruct (Hflush good Hgood) as (merged & -> & Hmerged). simpl.
      assert (∃ other, match recurse with None => inr [s] | Some f => f s end = inr other
                       ∧ Forall fits other) as (other & -> & Hother).
      { destruct recurse as [f|]; [apply Hrec|].
        specialize (Hnone eq_refl). apply Forall_cons in Hnone as [Hsmall _].
        unfold small in Hsmall. lia. }
      simpl.
      destruct (IH) with (_good_splits := @nil str) as (final & -> & Hfinal).
      { intros ->. specialize (Hnone eq_refl). by apply Forall_cons in Hnone as [_ ?]. }
      { constructor. }
      simpl. eexists. split; [done|]. rewrite !Forall_app. done.
Qed.

Lemma chars_small (text : str) : Forall small (_split_text_with_regex text []).
Proof.
  unfold _split_text_with_regex. apply Forall_forall. intros s Hs.
  apply list_elem_of_filter in Hs as [_ Hs].
  apply list_elem_of_fmap in Hs as (c & -> & _).
  unfold small, len. simpl. lia.
Qed.

Lemma _split_text_ok separators :
  [] ∈ separators →
  ∀ text, ∃ r, _split_text self separators text = inr r ∧ Forall fits r.
Proof.
  induction separators as [|_s rest IH]; intros Hin text.
  - by apply elem_of_nil in Hin.
  - simpl. case_decide as Hs.
    + apply split_loop_ok; [done| |constructor]. intros _. apply chars_small.
    + apply elem_of_cons in Hin as [?|Hin]; [done|].
      assert (Hrest : ∀ A (x y : A), match rest with [] => x | _ => y end = y).
      { intros. destruct rest; [by apply elem_of_nil in Hin|done]. }
      destruct (contains _s text).
      * apply split_loop_ok; [|by rewrite Hrest|constructor].
        rewrite Hrest. simpl. intros s. by apply IH.
      * rewrite Hrest. by apply IH.
Qed.

Lemma split_text_ok text :
  [] ∈ separators self →
  ∃ r, split_text self text = inr r ∧ Forall fits r.
Proof. intros. by apply _split_text_ok. Qed.

End Bound.
End SplitterFacts.

(** ** The chunker *)

Lemma text_splitter_total text :
  ∃ produced,
    RecursiveCharacterTextSplitter.split_text text_splitter text = inr produced
    ∧ Forall (λ c, len c ≤ 1000) produced.
Proof. apply (SplitterFacts.split_text_ok text_splitter); [done|done|]. set_solver. Qed.

Lemma get_text_chunks_unfold text :
  strip text ≠ [] →
  ∃ produced,
    RecursiveCharacterTextSplitter.split_text text_splitter text = inr produced
    ∧ Forall (λ c, len c ≤ 1000) produced
    ∧ get_text_chunks text
      = if decide (filter long_enough produced = [])
        then inl (splitting_error no_valid_chunks)
        else inr (filter long_enough produced).
Proof.
  intros Hne. destruct (text_splitter_total text) as (produced & Hs & Hb).
  exists produced. split_and!; [done..|].
  unfold get_text_chunks. case_decide; [done|]. rewrite Hs. cbn.
  fold long_enough. by case_decide.
Qed.

Lemma get_text_chunks_inr text chunks :
  get_text_chunks text = inr chunks →
  ∃ produced,
    RecursiveCharacterTextSplitter.split_text text_splitter text = inr produced
    ∧ Forall (λ c, len c ≤ 1000) produced
    ∧ chunks = filter long_enough produced
    ∧ chunks ≠ [].
Proof.
  intros Hget.
  destruct (decide (strip text = [])) as [Hb|Hb].
  { unfold get_text_chunks in Hget. by rewrite decide_True in Hget. }
  destruct (get_text_chunks_unfold text Hb) as (produced & Hs & Hfit & Heq).
  rewrite Hget in Heq. case_decide; [done|]. injection Heq as ->.
  by exists produced.
Qed.

(** C2, as amended. The list comprehension keeps a produced chunk exactly
    when its trimmed length is greater than 50: the returned chunks are
    the produced ones with trimmed length above 50, in their order, so no
    returned chunk has trimmed length 50 or less, and every produced
    chunk of trimmed length 51 or more is returned. *)
Theorem min_length_filter text chunks :
  get_text_chunks text = inr chunks →
  ∃ produced,
    RecursiveCharacterTextSplitter.split_text text_splitter text = inr produced
    ∧ chunks = filter (λ chunk, len (strip chunk) > 50) produced
    ∧ Forall (λ chunk, len (strip chunk) > 50) chunks
    ∧ Forall (λ chunk, 51 ≤ len (strip chunk) → chunk ∈ chunks) produced.
Proof.
  intros Hget.
  destruct (get_text_chunks_inr text chunks Hget) as (produced & Hs & _ & -> & _).
  exists produced. split_and!; [done|done| |].
  - apply Forall_forall. intros c Hc. by apply list_elem_of_filter in Hc as [? _].
  - apply Forall_forall. intros c Hc Hlen. apply list_elem_of_filter.
    split; [|done]. unfold long_enough. lia.
Qed.

Lemma min_length_filter_witness :
  Forall (λ chunk, len (strip chunk) > 50) [replicate 51 97%N].
Proof.
  destruct (min_length_filter (replicate 51 97%N) [replicate 51 97%N])
    as (produced & _ & _ & Hall & _); [vm_compute; reflexivity|].
  exact Hall.
Defined.

(** C2, as stated, fails: in a text made of fifty letters, a blank line
    and 999 letters the splitter produces a chunk of trimmed length
    exactly 50, and the returned sequence does not hold it. *)
Lemma boundary_chunk_dropped :
  let chunk := replicate 50 97%N in
  let text := chunk ++ [newline; newline] ++ replicate 999 98%N in
  RecursiveCharacterTextSplitter.split_text text_splitter text
    = inr [chunk; replicate 999 98%N]
  ∧ len (strip chunk) = 50
  ∧ get_text_chunks text = inr [replicate 999 98%N]
  ∧ chunk ∉ [replicate 999 98%N].
Proof.
  split_and!; [vm_compute; reflexivity..|].
  intros Hin. apply list_elem_of_singleton in Hin. discriminate Hin.
Qed.

(** C8. Every chunk [get_text_chunks] returns has at most 1000
    characters. *)
Theorem chunk_size_bound text chunks :
  get_text_chunks text = inr chunks → Forall (λ chunk, len chunk ≤ 1000) chunks.
Proof.
  intros Hget.
  destruct (get_text_chunks_inr text chunks Hget) as (produced & _ & Hb & -> & _).
  apply Forall_forall. intros c Hc. apply list_elem_of_filter in Hc as [_ Hc].
  by eapply Forall_forall in Hb.
Qed.

Lemma chunk_size_bound_witness :
  Forall (λ chunk, len chunk ≤ 1000)
    [replicate 1000 97%N; replicate 1000 97%N; replicate 900 97%N].
Proof.
  apply (chunk_size_bound (replicate 2500 97%N)). vm_compute. reflexivity.
Defined.

(** C9. [get_text_chunks] fails with the empty-input error on every text
    that is blank after trimming, fails with the no-valid-chunks error
    whenever the length filter removes every produced chunk, and
    otherwise returns a sequence that is not empty. *)
Theorem get_text_chunks_outcome text :
  if decide (strip text = []) then
    get_text_chunks text = inl (splitting_error empty_input)
  else
    ∃ produced,
      RecursiveCharacterTextSplitter.split_text text_splitter text = inr produced
      ∧ if decide (filter (λ chunk, len (strip chunk) > 50) produced = []) then
          get_text_chunks text = inl (splitting_error no_valid_chunks)
        else
          ∃ chunks, get_text_chunks text = inr chunks ∧ chunks ≠ [].
Proof.
  case_decide as Hb.
  - unfold get_text_chunks. by rewrite decide_True.
  - destruct (get_text_chunks_unfold text Hb) as (produced & Hs & _ & Heq).
    exists produced. split; [done|]. fold long_enough. rewrite Heq.
    case_decide; [done|]. by eexists.
Qed.

(** ** Running the statements of [rag.py] *)

Arguments lit : simpl never.
Arguments strip : simpl never.
Arguments os_path_join : simpl never.
Arguments os_path_dirname : simpl never.
Arguments join : simpl never.
Arguments format_messages : simpl never.
Arguments chain_template : simpl never.
Arguments prompt_text : simpl never.
Arguments prompt_head : simpl never.
Arguments prompt_middle : simpl never.
Arguments prompt_tail : simpl never.
Arguments search : simpl never.

Section RunFacts.
Context `{Collaborators}.

Lemma new_calls_app (w w' : World) new :
  calls w' = calls w ++ new → new_calls w w' = new.
Proof. intros Hc. unfold new_calls. rewrite Hc. by rewrite drop_app_length. Qed.

Lemma new_calls_refl (w : World) : new_calls w w = [].
Proof. apply new_calls_app. by rewrite app_nil_r. Qed.

Lemma quiet_ret : quiet (mret ()).
Proof. intros w. by exists w. Qed.

Lemma quiet_print line : quiet (print line).
Proof. intros w. by eexists. Qed.

Lemma quiet_seq (m k : M ()) : quiet m → quiet k → quiet (m;; k).
Proof.
  intros Hm Hk w. destruct (Hm w) as (w1 & Em & ? & ? & ?).
  destruct (Hk w1) as (w2 & Ek & ? & ? & ?).
  exists w2. unfold mbind, M_bind. rewrite Em, Ek. split_and!; congruence.
Qed.

Lemma quiet_for_each {A} (l : list A) (body : A → M ()) :
  (∀ x, quiet (body x)) → quiet (for_each l body).
Proof.
  intros Hbody. induction l as [|x l IH]; [apply quiet_ret|].
  simpl. by apply quiet_seq.
Qed.

(** Validating the model name only writes to standard output. *)
Lemma validate_model_name_quiet model_name : quiet (validate_model_name model_name).
Proof.
  unfold validate_model_name. case_decide; [apply quiet_ret|].
  apply quiet_seq; [apply quiet_print|].
  apply quiet_seq; [|apply quiet_print].
  apply quiet_for_each. intros [model_id description]. apply quiet_print.
Qed.

End RunFacts.

Section QueryFacts.
Context `{Collaborators}.

Lemma format_chain_template context input :
  format_messages chain_template [(lit "context", context); (lit "input", input)]
  = inr [HumanMessage (prompt_text context input)].
Proof. vm_compute. reflexivity. Qed.

Ltac unfold_run :=
  unfold try_except, raise_from, FAISS_load_local, as_retriever, similarity_search,
    create_retrieval_chain, create_stuff_documents_chain, invoke,
    HuggingFaceEmbeddings, os_path_exists, os_getenv, stat, record_call,
    lift, raise, mbind, M_bind, mret, M_ret; cbn.

Ltac steady :=
  eexists; split; [reflexivity|]; cbn; rewrite <- ?app_assoc; done.

Lemma process_question_run user_question model_name (w : World) :
  ∃ w', process_question user_question model_name w
        = ((chain_outcome user_question model_name
              (fs w !! storage_location) (environ w !! lit "GROQ_API_KEY")).1, w')
    ∧ calls w' = calls w ++ (chain_outcome user_question model_name
              (fs w !! storage_location) (environ w !! lit "GROQ_API_KEY")).2
    ∧ fs w' = fs w ∧ environ w' = environ w.
Proof.
  unfold process_question, chain_outcome, try_except.
  unfold mbind at 1. unfold M_bind at 1.
  destruct (decide (strip user_question = [])) as [Hq|Hq].
  { cbn. eexists. split; [done|]. by rewrite app_nil_r. }
  cbn. unfold mbind at 1. unfold M_bind at 1.
  destruct (validate_model_name_quiet model_name w) as (w1 & -> & Hfs1 & Henv1 & Hc1).
  rewrite <- Hfs1, <- Henv1, <- Hc1. clear Hfs1 Henv1 Hc1.
  unfold_run.
  change (Build_Embeddings (lit "sentence-transformers/all-MiniLM-L6-v2") (lit "cpu"))
    with all_MiniLM.
  change (os_path_join (os_path_dirname module_file) (lit "faiss_index"))
    with storage_location.
  destruct (load_embeddings all_MiniLM) as [e|[]]; cbn;
    [steady|].
  destruct (fs w1 !! storage_location) as [[data|vector_store]|] eqn:Hidx;
    cbn; rewrite ?Hidx; cbn; [steady| |steady].
  destruct (falsy (environ w1 !! lit "GROQ_API_KEY")) eqn:Hkey;
    cbn; rewrite ?Hkey; cbn; [steady|].
  unfold retrieved, synthesis.
  destruct (embed_query all_MiniLM user_question) as [e|query_vector]; cbn; [steady|].
  rewrite format_chain_template. cbn. unfold llm_for, context_block.
  destruct (chat_completion _ _) as [e|answer]; cbn; steady.
Qed.

Lemma process_question_simple_run user_question model_name (w : World) :
  ∃ w', process_question_simple user_question model_name w
        = ((simple_outcome user_question model_name
              (fs w !! storage_location) (environ w !! lit "GROQ_API_KEY")).1, w')
    ∧ calls w' = calls w ++ (simple_outcome user_question model_name
              (fs w !! storage_location) (environ w !! lit "GROQ_API_KEY")).2
    ∧ fs w' = fs w ∧ environ w' = environ w.
Proof.
  unfold process_question_simple, simple_outcome, try_except.
  unfold mbind at 1. unfold M_bind at 1.
  destruct (decide (strip user_question = [])) as [Hq|Hq].
  { cbn. eexists. split; [done|]. by rewrite app_nil_r. }
  unfold_run.
  change (Build_Embeddings (lit "sentence-transformers/all-MiniLM-L6-v2") (lit "cpu"))
    with all_MiniLM.
  change (os_path_join (os_path_dirname module_file) (lit "faiss_index"))
    with storage_location.
  destruct (load_embeddings all_MiniLM) as [e|[]]; cbn;
    [steady|].
  destruct (fs w !! storage_location) as [[data|vector_store]|] eqn:Hidx;
    cbn; rewrite ?Hidx; cbn; [steady| |steady].
  unfold retrieved, synthesis.
  destruct (embed_query all_MiniLM user_question) as [e|query_vector]; cbn; [steady|].
  destruct (decide (_ = [])) as [Hd|Hd]; cbn; [steady|].
  destruct (falsy (environ w !! lit "GROQ_API_KEY")) eqn:Hkey;
    cbn; rewrite ?Hkey; cbn; [steady|].
  unfold llm_for, context_block.
  destruct (chat_completion _ _) as [e|answer]; cbn; steady.
Qed.

End QueryFacts.

(** ** Ingestion *)

Section IngestFacts.
Context `{Collaborators}.

Lemma reads_only_ret {A} (a : A) : reads_only (mret a).
Proof. intros w. split_and!; [done..|]. exists []. by rewrite app_nil_r. Qed.

Lemma reads_only_raise {A} e : reads_only (raise (A:=A) e).
Proof. intros w. split_and!; [done..|]. exists []. by rewrite app_nil_r. Qed.

Lemma reads_only_lift {A} (r : result A) : reads_only (lift r).
Proof. intros w. split_and!; [done..|]. exists []. by rewrite app_nil_r. Qed.

Lemma reads_only_stat path : reads_only (stat path).
Proof. intros w. split_and!; [done..|]. exists []. by rewrite app_nil_r. Qed.

Lemma reads_only_record c : ¬ is_save_local c → reads_only (record_call c).
Proof.
  intros Hc w. split_and!; [done..|]. exists [c]. split; [done|].
  by apply Forall_singleton.
Qed.

Lemma reads_only_bind {A B} (m : M A) (k : A → M B) :
  reads_only m → (∀ a, reads_only (k a)) → reads_only (m ≫= k).
Proof.
  intros Hm Hk w. unfold mbind, M_bind.
  destruct (Hm w) as (Hf & He & new & Hc & Hn).
  destruct (m w) as [[e|a] w1]; cbn in *.
  { split_and!; [done..|]. by exists new. }
  destruct (Hk a w1) as (Hf' & He' & new' & Hc' & Hn').
  split_and!; [congruence..|]. exists (new ++ new').
  rewrite Hc', Hc, app_assoc. split; [done|]. by apply Forall_app.
Qed.

Lemma reads_only_try {A} (body : M A) (handler : exn → M A) :
  reads_only body → (∀ e, reads_only (handler e)) → reads_only (try_except body handler).
Proof.
  intros Hm Hk w. unfold try_except.
  destruct (Hm w) as (Hf & He & new & Hc & Hn).
  destruct (body w) as [[e|a] w1]; cbn in *.
  2: { split_and!; [done..|]. by exists new. }
  destruct (Hk e w1) as (Hf' & He' & new' & Hc' & Hn').
  split_and!; [congruence..|]. exists (new ++ new').
  rewrite Hc', Hc, app_assoc. split; [done|]. by apply Forall_app.
Qed.

Lemma reads_only_read_one_pdf pdf_path text : reads_only (read_one_pdf pdf_path text).
Proof.
  unfold read_one_pdf, raise_from. apply reads_only_try; [|intros; apply reads_only_raise].
  apply reads_only_bind.
  { unfold os_path_exists. apply reads_only_bind; [apply reads_only_stat|].
    intros. apply reads_only_ret. }
  intros found. apply reads_only_bind.
  { destruct (negb found); [apply reads_only_raise|apply reads_only_ret]. }
  intros _. apply reads_only_bind; [|intros; apply reads_only_lift].
  unfold PdfReader. apply reads_only_bind; [apply reads_only_record; cbn; tauto|].
  intros _. apply reads_only_bind; [apply reads_only_stat|].
  intros [[data|vs]|]; [apply reads_only_lift|apply reads_only_raise..].
Qed.

Lemma reads_only_read_pdfs pdf_paths : ∀ text, reads_only (read_pdfs pdf_paths text).
Proof.
  induction pdf_paths as [|p ps IH]; intros text; [apply reads_only_ret|].
  simpl. apply reads_only_bind; [apply reads_only_read_one_pdf|done].
Qed.

(** Text extraction writes nothing. *)
Lemma reads_only_get_pdf_text pdf_paths : reads_only (get_pdf_text pdf_paths).
Proof.
  unfold get_pdf_text. apply reads_only_bind; [apply reads_only_read_pdfs|].
  intros text. apply reads_only_bind; [|intros; apply reads_only_ret].
  case_decide; [apply reads_only_raise|apply reads_only_ret].
Qed.

Ltac settled :=
  eexists; split; [reflexivity|]; cbn; rewrite <- ?app_assoc; done.

Lemma get_vector_store_run text_chunks (w : World) :
  let out := store_outcome text_chunks (fs w !! storage_location) in
  ∃ w', get_vector_store text_chunks w = (out.1.1, w')
    ∧ calls w' = calls w ++ out.1.2
    ∧ fs w' = written w out.2
    ∧ environ w' = environ w.
Proof.
  unfold get_vector_store, store_outcome, try_except.
  unfold mbind at 1. unfold M_bind at 1.
  destruct (decide (text_chunks = [])) as [Hq|Hq].
  { cbn. eexists. split; [done|]. by rewrite app_nil_r. }
  unfold raise_from, FAISS_from_texts, FAISS_save_local, write_node, print,
    HuggingFaceEmbeddings, stat, record_call, lift, raise, mbind, M_bind,
    mret, M_ret; cbn.
  change (Build_Embeddings (lit "sentence-transformers/all-MiniLM-L6-v2") (lit "cpu"))
    with all_MiniLM.
  change (os_path_join (os_path_dirname module_file) (lit "faiss_index"))
    with storage_location.
  destruct (load_embeddings all_MiniLM) as [e|[]]; cbn;
    [settled|].
  destruct (embed_documents all_MiniLM text_chunks) as [e|vectors]; cbn; [settled|].
  destruct (fs w !! storage_location) as [[data|vector_store]|] eqn:Hidx;
    cbn; rewrite ?Hidx; cbn; settled.
Qed.

End IngestFacts.

(** ** The claims about ingestion and querying *)

Section Claims.
Context `{Collaborators}.

Lemma process_question_result q m (w : World) :
  (process_question q m w).1
  = (chain_outcome q m (fs w !! storage_location) (environ w !! api_key_name)).1.
Proof. destruct (process_question_run q m w) as (w' & -> & _). done. Qed.

Lemma process_question_calls q m (w : World) :
  new_calls w (process_question q m w).2
  = (chain_outcome q m (fs w !! storage_location) (environ w !! api_key_name)).2.
Proof.
  destruct (process_question_run q m w) as (w' & -> & Hc & _).
  by apply new_calls_app.
Qed.

Lemma process_question_simple_result q m (w : World) :
  (process_question_simple q m w).1
  = (simple_outcome q m (fs w !! storage_location) (environ w !! api_key_name)).1.
Proof. destruct (process_question_simple_run q m w) as (w' & -> & _). done. Qed.

Lemma process_question_simple_calls q m (w : World) :
  new_calls w (process_question_simple q m w).2
  = (simple_outcome q m (fs w !! storage_location) (environ w !! api_key_name)).2.
Proof.
  destruct (process_question_simple_run q m w) as (w' & -> & Hc & _).
  by apply new_calls_app.
Qed.

Lemma similarity_search_run entries query (w : World) :
  similarity_search (loaded entries) query 4 w
  = (retrieved entries query, add_call (Call_similarity_search query 4) w).
Proof.
  unfold similarity_search, retrieved, record_call, lift, mbind, M_bind, mret, M_ret.
  cbn. by destruct (embed_query all_MiniLM query).
Qed.

Lemma get_text_chunks_nonempty text chunks :
  get_text_chunks text = inr chunks → chunks ≠ [].
Proof.
  intros Hget. by destruct (get_text_chunks_inr text chunks Hget) as (? & _ & _ & _ & ?).
Qed.

Lemma ingest_unfold pdf_paths (w : World) :
  ingest pdf_paths w
  = match get_pdf_text pdf_paths w with
    | (inl e, w1) => (inl e, w1)
    | (inr raw_text, w1) =>
        match get_text_chunks raw_text with
        | inl e => (inl e, w1)
        | inr text_chunks => get_vector_store text_chunks w1
        end
    end.
Proof.
  unfold ingest, mbind, M_bind, lift.
  destruct (get_pdf_text pdf_paths w) as [[e|raw_text] w1]; [done|].
  by destruct (get_text_chunks raw_text).
Qed.

(** C1. A run of the ingest pipeline either gets through every stage
    before [save_local], which is then the last call made and the only
    one that can change the files, or fails before it, and then no
    [save_local] call was made and the files, the index at the storage
    location among them, are exactly what they were. *)
Theorem ingest_all_or_nothing pdf_paths (w : World) :
  let out := ingest pdf_paths w in
  let new := new_calls w out.2 in
  (upstream_ok pdf_paths w
   ∧ (∃ before, new = before ++ [Call_save_local storage_location]
                ∧ Forall (λ c, ¬ is_save_local c) before)
   ∧ ((∃ vector_store, out.1 = inr vector_store
         ∧ fs out.2
           = <[storage_location := IndexDir (docstore vector_store)]> (fs w))
      ∨ ((∃ e, out.1 = inl e) ∧ fs out.2 = fs w)))
  ∨ (¬ upstream_ok pdf_paths w
     ∧ (∃ e, out.1 = inl e)
     ∧ fs out.2 = fs w
     ∧ Forall (λ c, ¬ is_save_local c) new).
Proof.
  cbn zeta. rewrite ingest_unfold. unfold upstream_ok.
  destruct (reads_only_get_pdf_text pdf_paths w) as (Hfs & _ & new & Hcalls & Hnew).
  destruct (get_pdf_text pdf_paths w) as [[e|raw_text] w1] eqn:Hpdf; cbn in *.
  { right. split_and!; [|by eexists|done|].
    - intros (? & ? & ? & ? & ? & _). simplify_eq.
    - by rewrite (new_calls_app _ _ _ Hcalls). }
  destruct (get_text_chunks raw_text) as [e|text_chunks] eqn:Hchunks; cbn.
  { right. split_and!; [|by eexists|done|].
    - intros (? & ? & ? & ? & ? & ? & _). simplify_eq; try congruence.
    - by rewrite (new_calls_app _ _ _ Hcalls). }
  pose proof (get_text_chunks_nonempty _ _ Hchunks) as Hne.
  destruct (get_vector_store_run text_chunks w1) as (w2 & -> & Hcalls2 & Hfs2 & _).
  cbn. unfold written in Hfs2. rewrite Hfs in *. unfold store_outcome in *.
  destruct (decide (text_chunks = [])) as [|_]; [done|].
  destruct (load_embeddings all_MiniLM) as [e|[]] eqn:Hload;
    cbn in *.
  { right. split_and!; [|by eexists|done|].
    - intros (? & ? & ? & ? & ? & ? & ? & _). simplify_eq; try congruence.
    - rewrite (new_calls_app w w2 (new ++ [hf_call])).
      + apply Forall_app. split; [done|]. apply Forall_singleton. cbn. tauto.
      + by rewrite Hcalls2, Hcalls, app_assoc. }
  destruct (embed_documents all_MiniLM text_chunks) as [e|vectors] eqn:Hembed; cbn in *.
  { right. split_and!; [|by eexists|done|].
    - intros (? & ? & ? & ? & ? & ? & ? & ?). simplify_eq; try congruence.
    - rewrite (new_calls_app w w2 (new ++ from_texts_call text_chunks)).
      + apply Forall_app. split; [done|]. repeat constructor; cbn; tauto.
      + by rewrite Hcalls2, Hcalls, app_assoc. }
  left. split; [by eexists _, _, _, _|].
  assert (Hnc : new_calls w w2
    = (new ++ from_texts_call text_chunks) ++ [Call_save_local storage_location]).
  { apply new_calls_app.
    destruct (fs w !! storage_location) as [[data|vs]|]; cbn in *;
      by rewrite Hcalls2, Hcalls, <- !app_assoc. }
  split.
  { eexists. split; [done|]. apply Forall_app. split; [done|].
    repeat constructor; cbn; tauto. }
  destruct (fs w !! storage_location) as [[data|vs]|]; cbn in *;
    [right; split; [by eexists|done] | left; by eexists ..].
Qed.

(** C5, as amended. When nothing exists at the storage location, both
    query functions fail, and the only collaborator they may have called
    by then is the embeddings constructor: no index is loaded and the
    completion service is not invoked. The failure is the
    [FileNotFoundError] for the missing vector store whenever the
    question is not blank and the embedding model loads; a blank question
    and an embedding model that does not load are reported first. *)
Theorem query_without_index q m (w : World) :
  fs w !! storage_location = None →
  let chain := process_question q m w in
  let simple := process_question_simple q m w in
  (∃ e, chain.1 = inl e ∧ simple.1 = inl e
        ∧ (strip q ≠ [] → load_embeddings all_MiniLM = inr () →
           e = question_error index_not_found))
  ∧ Forall (λ c, c = hf_call) (new_calls w chain.2)
  ∧ Forall (λ c, c = hf_call) (new_calls w simple.2).
Proof.
  intros Hidx. cbn zeta.
  rewrite process_question_result, process_question_calls,
    process_question_simple_result, process_question_simple_calls.
  unfold chain_outcome, simple_outcome. rewrite Hidx.
  case_decide; [|destruct (load_embeddings _) as [e|[]]]; cbn;
    (split; [eexists; split_and!; [done..|]; intros; done || congruence
            |split; repeat constructor]).
Qed.

(** C6, as amended. [process_question] either fails or returns what the
    completion service replied. [process_question_simple] either fails,
    or returns what the completion service replied, or, when retrieval
    returns no document, returns its own fixed sentence without invoking
    the completion service. *)
Theorem query_answer_or_failure q m (w : World) :
  let chain := process_question q m w in
  let simple := process_question_simple q m w in
  ((∃ e, chain.1 = inl e)
   ∨ (∃ answer, chain.1 = inr answer ∧ synthesized (new_calls w chain.2) answer))
  ∧ ((∃ e, simple.1 = inl e)
     ∨ (∃ answer, simple.1 = inr answer ∧ synthesized (new_calls w simple.2) answer)
     ∨ (simple.1 = inr no_documents_answer
        ∧ (∃ entries, fs w !! storage_location = Some (IndexDir entries)
                      ∧ retrieved entries q = inr [])
        ∧ Forall (λ c, ¬ is_invoke c) (new_calls w simple.2))).
Proof.
  cbn zeta.
  rewrite process_question_result, process_question_calls,
    process_question_simple_result, process_question_simple_calls.
  unfold chain_outcome, simple_outcome, synthesis, synthesized.
  split.
  - repeat case_match; cbn; try (left; by eexists).
    right. eexists. split; [done|]. eexists _, _. split; [reflexivity|done].
  - repeat case_match; cbn; try (left; by eexists); subst.
    + right. right. split_and!; [done|by eexists|].
      repeat constructor; cbn; tauto.
    + right. left. eexists. split; [done|]. eexists _, _.
      split; [reflexivity|done].
Qed.

(** C3, as amended. For a question that is not blank and an index from
    which retrieval returns at least one document, [process_question]
    and [process_question_simple] give the same outcome. *)
Theorem query_modes_agree q m (w : World) entries docs :
  strip q ≠ [] →
  fs w !! storage_location = Some (IndexDir entries) →
  (similarity_search (loaded entries) q 4 w).1 = inr docs →
  docs ≠ [] →
  (process_question q m w).1 = (process_question_simple q m w).1.
Proof.
  intros Hq Hidx Hdocs Hne. rewrite similarity_search_run in Hdocs. cbn in Hdocs.
  rewrite process_question_result, process_question_simple_result.
  unfold chain_outcome, simple_outcome. rewrite !decide_False by done.
  rewrite Hidx, Hdocs. rewrite decide_False by done.
  repeat case_match; done.
Qed.


Lemma nearer_total query : Total (nearer query).
Proof. intros a b. unfold nearer. lia. Qed.

Lemma nearer_trans query : Transitive (nearer query).
Proof. intros a b c. unfold nearer. lia. Qed.

#[local] Existing Instances nearer_total nearer_trans.

(** C4. Both query functions ask the index for the 4 entries nearest to
    the question, and for nothing else: for a question that is not blank,
    an index that loads and a query the embedder accepts,
    [process_question_simple] makes exactly one search, for the question
    with [k = 4], and so does [process_question] when the key is usable;
    the documents the search returns are the ones that go into the
    prompt, and when there is none [process_question_simple] answers
    with its own sentence. The search returns as many entries as the
    index holds, up to 4, nearest first; every entry it leaves out is at
    least as far from the query as every entry it returns; and an index
    of fewer than 4 entries is returned whole, each entry once. *)
Theorem retrieval_top_k q m (w : World) (entries : list (str * vector))
  (query_vector : vector) :
  Forall (λ c, ∀ query k, c = Call_similarity_search query k → query = q ∧ k = 4)
    (new_calls w (process_question q m w).2
     ++ new_calls w (process_question_simple q m w).2)
  ∧ (similarity_search (loaded entries) q 4 w).1
    = (query_vector ← embed_query all_MiniLM q;
       inr ((λ e, {| page_content := e.1 |}) <$> search entries query_vector 4))
  ∧ (strip q ≠ [] →
     load_embeddings all_MiniLM = inr () →
     fs w !! storage_location = Some (IndexDir entries) →
     embed_query all_MiniLM q = inr query_vector →
     let key := environ w !! api_key_name in
     let docs := (λ e, {| page_content := e.1 |}) <$> search entries query_vector 4 in
     let ask :=
       Call_invoke (llm_for key m) [HumanMessage (prompt_text (context_block docs) q)] in
     new_calls w (process_question_simple q m w).2
     = [hf_call; Call_load_local storage_location; Call_similarity_search q 4]
       ++ (if decide (docs = []) then [] else if falsy key then [] else [ask])
     ∧ (docs = [] → (process_question_simple q m w).1 = inr no_documents_answer)
     ∧ (falsy key = false →
        new_calls w (process_question q m w).2
        = [hf_call; Call_load_local storage_location; Call_similarity_search q 4; ask]))
  ∧ let hits := search entries query_vector 4 in
    length hits = (4 `min` length entries)%nat
    ∧ StronglySorted (nearer query_vector) hits
    ∧ (∃ rest, hits ++ rest ≡ₚ entries
               ∧ ∀ a b, a ∈ hits → b ∈ rest → nearer query_vector a b)
    ∧ ((length entries < 4)%nat → hits ≡ₚ entries).
Proof.
  split_and!.
  - rewrite process_question_calls, process_question_simple_calls.
    unfold chain_outcome, simple_outcome, synthesis.
    apply Forall_app. split;
      repeat case_match; cbn; repeat constructor; intros; by simplify_eq.
  - by rewrite similarity_search_run.
  - intros Hq Hload Hidx Hembed. cbn zeta.
    rewrite process_question_calls, process_question_simple_calls,
      process_question_simple_result.
    unfold chain_outcome, simple_outcome, retrieved, synthesis.
    rewrite !decide_False by done. rewrite Hload, Hidx, Hembed.
    cbn [mbind result_bind rbind].
    split_and!.
    + case_decide; [done|]. by destruct (falsy _).
    + intros Hnone. by rewrite decide_True.
    + intros Hkey. rewrite ?decide_False by done. by rewrite Hkey.
  - cbn zeta. unfold search. change (Z.to_nat 4) with 4%nat.
    pose proof (StronglySorted_merge_sort (nearer query_vector) entries) as Hs.
    pose proof (merge_sort_Permutation (nearer query_vector) entries) as Hp.
    set (sorted := merge_sort (nearer query_vector) entries) in *.
    rewrite <- (take_drop 4 sorted) in Hs.
    split_and!.
    + rewrite length_take. by rewrite Hp.
    + by eapply StronglySorted_app_1_l.
    + exists (drop 4 sorted). split; [by rewrite take_drop|].
      intros a b. by eapply StronglySorted_app_1_elem_of.
    + intros Hlt. rewrite take_ge; [done|]. rewrite Hp. lia.
Qed.

(** C10. The index path is the directory of [rag.py] joined with
    [faiss_index]. A successful [get_vector_store] puts the new index
    there, replacing what was there, and no call of it changes any other
    path; what the two query functions return depends on the files only
    through what is at that path. The path is written and read indeed:
    for chunks the embedder accepts, [get_vector_store] succeeds unless
    a regular file is in the way, its last call is [save_local] on that
    path, and afterwards the new entries are there, whatever index was
    there before; a question that is not blank makes both query
    functions call [load_local] on that path when an index is there, and
    fail with the error that names the path when nothing is. *)
Theorem single_storage_location :
  storage_location = os_path_join (os_path_dirname module_file) (lit "faiss_index")
  ∧ (∀ text_chunks (w w' : World) vector_store,
       get_vector_store text_chunks w = (inr vector_store, w') →
       fs w' = <[storage_location := IndexDir (docstore vector_store)]> (fs w))
  ∧ (∀ text_chunks (w : World) path,
       path ≠ storage_location →
       fs (get_vector_store text_chunks w).2 !! path = fs w !! path)
  ∧ (∀ q m (w1 w2 : World),
       fs w1 !! storage_location = fs w2 !! storage_location →
       environ w1 !! api_key_name = environ w2 !! api_key_name →
       (process_question q m w1).1 = (process_question q m w2).1
       ∧ (process_question_simple q m w1).1 = (process_question_simple q m w2).1)
  ∧ (∀ text_chunks vectors (w : World),
       text_chunks ≠ [] →
       load_embeddings all_MiniLM = inr () →
       embed_documents all_MiniLM text_chunks = inr vectors →
       (∀ data, fs w !! storage_location ≠ Some (RegularFile data)) →
       ∃ w', get_vector_store text_chunks w
             = (inr (loaded (zip text_chunks vectors)), w')
             ∧ last (new_calls w w') = Some (Call_save_local storage_location)
             ∧ fs w' !! storage_location = Some (IndexDir (zip text_chunks vectors)))
  ∧ (∀ q m (w : World) entries,
       strip q ≠ [] →
       load_embeddings all_MiniLM = inr () →
       fs w !! storage_location = Some (IndexDir entries) →
       [hf_call; Call_load_local storage_location]
         `prefix_of` new_calls w (process_question q m w).2
       ∧ [hf_call; Call_load_local storage_location]
           `prefix_of` new_calls w (process_question_simple q m w).2)
  ∧ (∀ q m (w : World),
       strip q ≠ [] →
       load_embeddings all_MiniLM = inr () →
       fs w !! storage_location = None →
       (process_question q m w).1 = inl (question_error index_not_found)
       ∧ (process_question_simple q m w).1 = inl (question_error index_not_found)).
Proof.
  split_and!; [done| | | | | |].
  - intros text_chunks w w' vs Hrun.
    destruct (get_vector_store_run text_chunks w) as (w2 & Hrun' & _ & Hfs & _).
    rewrite Hrun in Hrun'. injection Hrun' as Hres <-. rewrite Hfs.
    unfold store_outcome in *. repeat case_match; cbn in *; by simplify_eq.
  - intros text_chunks w path Hpath.
    destruct (get_vector_store_run text_chunks w) as (w2 & -> & _ & Hfs & _).
    cbn. rewrite Hfs. unfold written. case_match; [|done].
    by rewrite lookup_insert_ne.
  - intros q m w1 w2 Hfs Henv.
    rewrite !process_question_result, !process_question_simple_result.
    by rewrite Hfs, Henv.
  - intros text_chunks vectors w Hne Hload Hembed Hfile.
    destruct (get_vector_store_run text_chunks w) as (w' & Hrun & Hcalls & Hfs & _).
    revert Hrun Hcalls Hfs. unfold store_outcome.
    rewrite decide_False by done. rewrite Hload, Hembed.
    destruct (fs w !! storage_location) as [[data|old]|] eqn:Hidx;
      [by destruct (Hfile data)|..]; cbn [fst snd written]; intros Hrun Hcalls Hfs.
    all: exists w'; split_and!; [done| |by rewrite Hfs, lookup_insert_eq].
    all: unfold new_calls; rewrite Hcalls, drop_app_length.
    all: by rewrite last_snoc.
  - intros q m w entries Hq Hload Hidx.
    rewrite process_question_calls, process_question_simple_calls.
    unfold chain_outcome, simple_outcome, synthesis.
    rewrite !decide_False by done. rewrite Hload, Hidx.
    split.
    + destruct (falsy _); [done|].
      destruct (retrieved entries q); cbn [fst snd];
        rewrite <- ?app_assoc; by apply prefix_app_r.
    + destruct (retrieved entries q) as [e|docs]; cbn [fst snd];
        [by eexists [_]|].
      case_decide; [by eexists [_]|].
      destruct (falsy _); cbn [fst snd]; [by eexists [_]|].
      by eexists [_; _].
  - intros q m w Hq Hload Hidx.
    rewrite process_question_result, process_question_simple_result.
    unfold chain_outcome, simple_outcome.
    rewrite !decide_False by done. by rewrite Hload, Hidx.
Qed.

End Claims.


(** * Further properties of the code *)

(** ** Text extraction *)

Section ExtractionFacts.
Context `{Collaborators}.

Lemma add_calls_nil (w : World) : add_calls [] w = w.
Proof. destruct w. unfold add_calls. cbn. by rewrite app_nil_r. Qed.

Lemma add_calls_app cs1 cs2 (w : World) :
  add_calls cs2 (add_calls cs1 w) = add_calls (cs1 ++ cs2) w.
Proof. unfold add_calls. cbn. by rewrite app_assoc. Qed.

Lemma add_call_add_calls c (w : World) : add_call c w = add_calls [c] w.
Proof. done. Qed.

Lemma extract_pages_texts pages : ∀ text,
  extract_pages (inr <$> pages) text = inr (text ++ page_texts pages).
Proof.
  induction pages as [|page pages IH]; intros text; cbn.
  { by rewrite app_nil_r. }
  unfold page_texts in *. cbn. case_decide.
  - rewrite IH. done.
  - rewrite IH. by rewrite <- !app_assoc.
Qed.

Lemma extract_pages_inr pages : ∀ text result,
  extract_pages pages text = inr result →
  ∃ texts, pages = inr <$> texts ∧ result = text ++ page_texts texts.
Proof.
  induction pages as [|[e|page] pages IH]; intros text result Hrun; cbn in Hrun.
  - injection Hrun as <-. exists []. by rewrite app_nil_r.
  - done.
  - case_decide as Hp.
    + destruct (IH _ _ Hrun) as (texts & -> & ->). exists (page :: texts).
      split; [done|]. unfold page_texts. cbn. by rewrite decide_True.
    + destruct (IH _ _ Hrun) as (texts & -> & ->). exists (page :: texts).
      split; [done|]. unfold page_texts. cbn. rewrite decide_False by done.
      by rewrite <- !app_assoc.
Qed.

(** What one turn of the loop over the paths does. *)
Lemma read_one_pdf_run pdf_path text (w : World) :
  read_one_pdf pdf_path text w
  = match fs w !! pdf_path with
    | None => (inl (reading_error pdf_path (pdf_not_found pdf_path)), w)
    | Some (RegularFile data) =>
        (match pages ← read_pdf data; extract_pages pages text with
         | inl e => inl (reading_error pdf_path e)
         | inr text' => inr text'
         end, add_calls [Call_PdfReader pdf_path] w)
    | Some (IndexDir _) =>
        (inl (reading_error pdf_path
                (Exn IsADirectoryError (lit "Is a directory: " ++ pdf_path) None)),
         add_calls [Call_PdfReader pdf_path] w)
    end.
Proof.
  unfold read_one_pdf, try_except, raise_from, PdfReader, os_path_exists, stat,
    record_call, lift, raise, mbind, M_bind, mret, M_ret. cbn.
  destruct (fs w !! pdf_path) as [[data|entries]|] eqn:Hp; cbn; rewrite ?Hp; cbn.
  - unfold rbind. destruct (read_pdf data) as [e|pages]; cbn; [done|].
    by destruct (extract_pages pages text).
  - done.
  - done.
Qed.

Lemma read_pdfs_readable pdf_paths files (w : World) :
  Forall2 (readable w) pdf_paths files →
  ∀ text (w0 : World), fs w0 = fs w →
  read_pdfs pdf_paths text w0
  = (inr (text ++ (files ≫= page_texts)),
     add_calls (Call_PdfReader <$> pdf_paths) w0).
Proof.
  induction 1 as [|p pages ps files (data & Hp & Hr) _ IH]; intros text w0 Hfs.
  { cbn. by rewrite app_nil_r, add_calls_nil. }
  cbn. unfold mbind at 1. unfold M_bind. rewrite read_one_pdf_run, Hfs, Hp, Hr.
  cbn. rewrite extract_pages_texts. rewrite IH by done.
  by rewrite add_calls_app, <- app_assoc.
Qed.

Lemma read_pdfs_inr pdf_paths : ∀ text (w w' : World) result,
  read_pdfs pdf_paths text w = (inr result, w') →
  w' = add_calls (Call_PdfReader <$> pdf_paths) w
  ∧ ∃ files, Forall2 (readable w) pdf_paths files
             ∧ result = text ++ (files ≫= page_texts).
Proof.
  induction pdf_paths as [|p ps IH]; intros text w w' result Hrun.
  { cbn in Hrun. injection Hrun as <- <-. rewrite add_calls_nil.
    split; [done|]. exists []. split; [constructor|]. by rewrite app_nil_r. }
  cbn in Hrun. unfold mbind at 1 in Hrun. unfold M_bind in Hrun.
  rewrite read_one_pdf_run in Hrun.
  destruct (fs w !! p) as [[data|entries]|] eqn:Hp; [|done..].
  destruct (read_pdf data) as [e|pages] eqn:Hr; [done|]. cbn in Hrun.
  destruct (extract_pages pages text) as [e|text'] eqn:He; [done|].
  destruct (extract_pages_inr _ _ _ He) as (texts & -> & ->).
  destruct (IH _ _ _ _ Hrun) as (-> & files & Hfiles & ->).
  split; [by rewrite add_calls_app|].
  exists (texts :: files). split.
  - constructor; [by exists data|done].
  - cbn. by rewrite <- app_assoc.
Qed.

Lemma read_pdfs_world pdf_paths : ∀ text (w : World),
  ∃ n, (read_pdfs pdf_paths text w).2
       = add_calls (Call_PdfReader <$> take n pdf_paths) w.
Proof.
  induction pdf_paths as [|p ps IH]; intros text w.
  { exists 0%nat. cbn. by rewrite add_calls_nil. }
  cbn. unfold mbind at 1. unfold M_bind. rewrite read_one_pdf_run.
  destruct (fs w !! p) as [[data|entries]|] eqn:Hp.
  - destruct (pages ← read_pdf data; extract_pages pages text) as [e|text'].
    + exists 1%nat. done.
    + destruct (IH text' (add_calls [Call_PdfReader p] w)) as (n & Hn).
      exists (S n). rewrite Hn. by rewrite add_calls_app.
  - exists 1%nat. done.
  - exists 0%nat. cbn. by rewrite add_calls_nil.
Qed.

Lemma get_pdf_text_unfold pdf_paths (w : World) :
  get_pdf_text pdf_paths w
  = match read_pdfs pdf_paths [] w with
    | (inl e, w') => (inl e, w')
    | (inr text, w') =>
        if decide (strip text = []) then (inl no_text_extracted, w')
        else (inr text, w')
    end.
Proof.
  unfold get_pdf_text, mbind, M_bind, raise, mret, M_ret.
  destruct (read_pdfs pdf_paths [] w) as [[e|text] w']; [done|].
  by case_decide.
Qed.

(** X1. When [get_pdf_text] returns, every path of the list was a file
    the reader could read, the reader was called once per path in the
    order of the list and nothing else changed, and the text is what the
    pages that are not empty give, each followed by a newline, file after
    file; it is not blank. *)
Theorem get_pdf_text_success pdf_paths (w w' : World) text :
  get_pdf_text pdf_paths w = (inr text, w') →
  w' = add_calls (Call_PdfReader <$> pdf_paths) w
  ∧ strip text ≠ []
  ∧ ∃ files, Forall2 (readable w) pdf_paths files ∧ text = files ≫= page_texts.
Proof.
  rewrite get_pdf_text_unfold.
  destruct (read_pdfs pdf_paths [] w) as [[e|text'] w1] eqn:Hrun; [done|].
  case_decide as Hblank; [done|]. intros [= <- <-].
  destruct (read_pdfs_inr _ _ _ _ _ Hrun) as (-> & files & Hfiles & ->).
  split_and!; [done..|]. by exists files.
Qed.

(** X2. A path that does not exist, after paths that were all read, makes
    [get_pdf_text] fail with the error that names it; the reader is not
    called for it nor for the paths after it, and the text read so far is
    dropped. *)
Theorem get_pdf_text_missing_file before pdf_path after files (w : World) :
  Forall2 (readable w) before files →
  fs w !! pdf_path = None →
  get_pdf_text (before ++ pdf_path :: after) w
  = (inl (reading_error pdf_path (pdf_not_found pdf_path)),
     add_calls (Call_PdfReader <$> before) w).
Proof.
  intros Hfiles Hmissing. rewrite get_pdf_text_unfold.
  assert (∀ text (w0 : World), fs w0 = fs w →
    read_pdfs (before ++ pdf_path :: after) text w0
    = (inl (reading_error pdf_path (pdf_not_found pdf_path)),
       add_calls (Call_PdfReader <$> before) w0)) as ->; [|done..].
  induction Hfiles as [|p pages ps files (data & Hp & Hr) _ IH]; intros text w0 Hfs.
  - cbn. unfold mbind at 1. unfold M_bind.
    rewrite read_one_pdf_run, Hfs, Hmissing. by rewrite add_calls_nil.
  - cbn. unfold mbind at 1. unfold M_bind. rewrite read_one_pdf_run, Hfs, Hp, Hr.
    cbn. rewrite extract_pages_texts. rewrite IH by done.
    by rewrite add_calls_app.
Qed.

(** X3. When every path is read but the text gathered is blank, as for an
    empty list of paths or for files whose pages hold no text,
    [get_pdf_text] fails with the error for no text, which is not
    wrapped. *)
Theorem get_pdf_text_no_text pdf_paths files (w : World) :
  Forall2 (readable w) pdf_paths files →
  strip (files ≫= page_texts) = [] →
  get_pdf_text pdf_paths w
  = (inl no_text_extracted, add_calls (Call_PdfReader <$> pdf_paths) w).
Proof.
  intros Hfiles Hblank. rewrite get_pdf_text_unfold.
  rewrite (read_pdfs_readable _ _ _ Hfiles) by done. cbn.
  by rewrite decide_True.
Qed.

(** X4. Whatever its outcome, [get_pdf_text] leaves files, environment
    and standard output as they are, and the only calls it makes are to
    the PDF reader, for the first paths of the list in their order. *)
Theorem get_pdf_text_reads_only pdf_paths (w : World) :
  ∃ n, (get_pdf_text pdf_paths w).2
       = add_calls (Call_PdfReader <$> take n pdf_paths) w.
Proof.
  rewrite get_pdf_text_unfold.
  destruct (read_pdfs_world pdf_paths [] w) as (n & Hn). exists n.
  destruct (read_pdfs pdf_paths [] w) as [[e|text] w']; [done|].
  by case_decide.
Qed.

End ExtractionFacts.

(** ** Whole-world descriptions of the three stateful functions *)

Section WorldFacts.
Context `{Collaborators}.

Lemma add_lines_nil (w : World) : add_lines [] w = w.
Proof. destruct w. unfold add_lines. cbn. by rewrite app_nil_r. Qed.

Lemma add_lines_app l1 l2 (w : World) :
  add_lines l2 (add_lines l1 w) = add_lines (l1 ++ l2) w.
Proof. unfold add_lines. cbn. by rewrite app_assoc. Qed.

Lemma for_each_lines {A} (l : list A) (body : A → M ()) (line : A → str) :
  (∀ x (w : World), body x w = (inr (), add_lines [line x] w)) →
  ∀ w : World, for_each l body w = (inr (), add_lines (line <$> l) w).
Proof.
  intros Hbody. induction l as [|x l IH]; intros w; cbn.
  { by rewrite add_lines_nil. }
  unfold mbind, M_bind. rewrite Hbody, IH. by rewrite add_lines_app.
Qed.

Lemma seq_print line {A} (k : M A) (w : World) :
  (print line;; k) w = k (add_lines [line] w).
Proof. done. Qed.

Lemma validate_model_name_run model_name (w : World) :
  validate_model_name model_name w = (inr (), add_lines (model_warning model_name) w).
Proof.
  unfold validate_model_name, model_warning. case_decide.
  { rewrite add_lines_nil. reflexivity. }
  rewrite seq_print. unfold mbind at 1. unfold M_bind.
  rewrite (for_each_lines _ _ (λ p, lit "  - " ++ p.1 ++ lit ": " ++ p.2)).
  2: { by intros [model_id description] w0. }
  unfold print, add_stdout, add_lines. cbn [fs environ stdout calls].
  by rewrite <- !app_assoc.
Qed.

Ltac same_world :=
  f_equal; unfold add_call, add_calls, add_lines, add_stdout, set_fs; cbn;
  f_equal; rewrite <- ?app_assoc; done.

Lemma process_question_world user_question model_name (w : World) :
  process_question user_question model_name w
  = ((chain_outcome user_question model_name
        (fs w !! storage_location) (environ w !! api_key_name)).1,
     add_calls
       (chain_outcome user_question model_name
          (fs w !! storage_location) (environ w !! api_key_name)).2
       (add_lines
          (if decide (strip user_question = []) then [] else model_warning model_name)
          w)).
Proof.
  unfold process_question, chain_outcome, try_except.
  unfold mbind at 1. unfold M_bind at 1.
  destruct (decide (strip user_question = [])) as [Hq|Hq].
  { cbn. by rewrite add_lines_nil, add_calls_nil. }
  cbn. unfold mbind at 1. unfold M_bind at 1.
  rewrite validate_model_name_run.
  set (w1 := add_lines (model_warning model_name) w).
  change (fs w) with (fs w1). change (environ w) with (environ w1).
  clearbody w1.
  unfold try_except, raise_from, FAISS_load_local, as_retriever, similarity_search,
    create_retrieval_chain, create_stuff_documents_chain, invoke,
    HuggingFaceEmbeddings, os_path_exists, os_getenv, stat, record_call,
    lift, raise, mbind, M_bind, mret, M_ret; cbn.
  change (Build_Embeddings (lit "sentence-transformers/all-MiniLM-L6-v2") (lit "cpu"))
    with all_MiniLM.
  change (os_path_join (os_path_dirname module_file) (lit "faiss_index"))
    with storage_location.
  change (lit "GROQ_API_KEY") with api_key_name.
  destruct (load_embeddings all_MiniLM) as [e|[]]; cbn; [same_world|].
  destruct (fs w1 !! storage_location) as [[data|vector_store]|] eqn:Hidx;
    cbn; rewrite ?Hidx; cbn; [same_world| |same_world].
  destruct (falsy (environ w1 !! api_key_name)) eqn:Hkey;
    cbn; rewrite ?Hkey; cbn; [same_world|].
  unfold retrieved, synthesis.
  destruct (embed_query all_MiniLM user_question) as [e|query_vector]; cbn;
    [same_world|].
  rewrite format_chain_template. cbn. unfold llm_for, context_block.
  destruct (chat_completion _ _) as [e|answer]; cbn; same_world.
Qed.

Lemma process_question_simple_world user_question model_name (w : World) :
  process_question_simple user_question model_name w
  = ((simple_outcome user_question model_name
        (fs w !! storage_location) (environ w !! api_key_name)).1,
     add_calls
       (simple_outcome user_question model_name
          (fs w !! storage_location) (environ w !! api_key_name)).2
       w).
Proof.
  unfold process_question_simple, simple_outcome, try_except.
  unfold mbind at 1. unfold M_bind at 1.
  destruct (decide (strip user_question = [])) as [Hq|Hq].
  { cbn. by rewrite add_calls_nil. }
  unfold try_except, raise_from, FAISS_load_local, as_retriever, similarity_search,
    create_retrieval_chain, create_stuff_documents_chain, invoke,
    HuggingFaceEmbeddings, os_path_exists, os_getenv, stat, record_call,
    lift, raise, mbind, M_bind, mret, M_ret; cbn.
  change (Build_Embeddings (lit "sentence-transformers/all-MiniLM-L6-v2") (lit "cpu"))
    with all_MiniLM.
  change (os_path_join (os_path_dirname module_file) (lit "faiss_index"))
    with storage_location.
  change (lit "GROQ_API_KEY") with api_key_name.
  destruct (load_embeddings all_MiniLM) as [e|[]]; cbn; [same_world|].
  destruct (fs w !! storage_location) as [[data|vector_store]|] eqn:Hidx;
    cbn; rewrite ?Hidx; cbn; [same_world| |same_world].
  unfold retrieved, synthesis.
  destruct (embed_query all_MiniLM user_question) as [e|query_vector]; cbn;
    [same_world|].
  destruct (decide (_ = [])) as [Hd|Hd]; cbn; [same_world|].
  destruct (falsy (environ w !! api_key_name)) eqn:Hkey;
    cbn; rewrite ?Hkey; cbn; [same_world|].
  unfold llm_for, context_block.
  destruct (chat_completion _ _) as [e|answer]; cbn; same_world.
Qed.

Lemma get_vector_store_world text_chunks (w : World) :
  get_vector_store text_chunks w
  = let out := store_outcome text_chunks (fs w !! storage_location) in
    (out.1.1,
     match out.2 with
     | Some entries =>
         add_lines (saved_lines text_chunks)
           (set_fs (<[storage_location := IndexDir entries]> (fs w))
              (add_calls out.1.2 w))
     | None => add_calls out.1.2 w
     end).
Proof.
  unfold get_vector_store, store_outcome, try_except.
  unfold mbind at 1. unfold M_bind at 1.
  destruct (decide (text_chunks = [])) as [Hq|Hq].
  { cbn. by rewrite add_calls_nil. }
  unfold raise_from, FAISS_from_texts, FAISS_save_local, write_node, print,
    HuggingFaceEmbeddings, stat, record_call, lift, raise, mbind, M_bind,
    mret, M_ret; cbn.
  change (Build_Embeddings (lit "sentence-transformers/all-MiniLM-L6-v2") (lit "cpu"))
    with all_MiniLM.
  change (os_path_join (os_path_dirname module_file) (lit "faiss_index"))
    with storage_location.
  destruct (load_embeddings all_MiniLM) as [e|[]]; cbn; [same_world|].
  destruct (embed_documents all_MiniLM text_chunks) as [e|vectors]; cbn;
    [same_world|].
  destruct (fs w !! storage_location) as [[data|vector_store]|] eqn:Hidx;
    cbn; rewrite ?Hidx; cbn; same_world.
Qed.

End WorldFacts.

(** ** Saving the index *)

Section StoreFacts.
Context `{Collaborators}.

Lemma get_vector_store_inr text_chunks (w w' : World) vector_store :
  get_vector_store text_chunks w = (inr vector_store, w') →
  ∃ vectors,
    text_chunks ≠ []
    ∧ load_embeddings all_MiniLM = inr ()
    ∧ embed_documents all_MiniLM text_chunks = inr vectors
    ∧ vector_store = loaded (zip text_chunks vectors)
    ∧ w' = add_lines (saved_lines text_chunks)
             (set_fs (<[storage_location := IndexDir (zip text_chunks vectors)]> (fs w))
                (add_calls (from_texts_call text_chunks ++ [Call_save_local storage_location])
                   w)).
Proof.
  rewrite get_vector_store_world. unfold store_outcome. cbn zeta.
  case_decide; [done|].
  destruct (load_embeddings all_MiniLM) as [e|[]]; [done|].
  destruct (embed_documents all_MiniLM text_chunks) as [e|vectors]; [done|].
  destruct (fs w !! storage_location) as [[data|entries]|]; cbn; [done|..];
    intros [= <- <-]; by exists vectors.
Qed.

(** X5. For an empty list of chunks [get_vector_store] fails at once with
    the error for no chunks, wrapped as every error of it is; no
    collaborator is called, nothing is printed and nothing is written. *)
Theorem get_vector_store_no_chunks (w : World) :
  get_vector_store [] w = (inl (store_error no_text_chunks), w).
Proof. rewrite get_vector_store_world. cbn. by rewrite add_calls_nil. Qed.

(** X6. When [get_vector_store] succeeds, the store it returns pairs the
    chunks in their order with the vectors the embedder gave, and it has
    printed the path of the index and the number of chunks, in that
    order; when it fails, the error is [Error creating vector store: ]
    followed by the message of its cause, and a failure that comes before
    [save_local] is called has printed nothing and changed no file. *)
Theorem get_vector_store_report text_chunks (w : World) :
  let out := get_vector_store text_chunks w in
  match out.1 with
  | inr vector_store =>
      (∃ vectors, embed_documents all_MiniLM text_chunks = inr vectors
                  ∧ vector_store = loaded (zip text_chunks vectors))
      ∧ stdout out.2 = stdout w ++ saved_lines text_chunks
  | inl e =>
      (∃ cause, e = store_error cause)
      ∧ (Call_save_local storage_location ∉ new_calls w out.2 →
         stdout out.2 = stdout w ∧ fs out.2 = fs w)
  end.
Proof.
  cbn zeta. rewrite get_vector_store_world. unfold store_outcome. cbn zeta.
  case_decide; [cbn; by eauto|].
  destruct (load_embeddings all_MiniLM) as [e|[]]; [cbn; by eauto|].
  destruct (embed_documents all_MiniLM text_chunks) as [e|vectors]; [cbn; by eauto|].
  destruct (fs w !! storage_location) as [[data|entries]|]; cbn; by eauto.
Qed.

End StoreFacts.

(** ** Asking questions *)

Section AskFacts.
Context `{Collaborators}.

(** X7. A blank question makes both query functions fail with the error
    for an empty question and leaves the world exactly as it was: no
    collaborator is called and nothing is printed, whatever the model
    name, the index and the environment. *)
Theorem blank_question_rejected q m (w : World) :
  strip q = [] →
  process_question q m w = (inl (question_error empty_question), w)
  ∧ process_question_simple q m w = (inl (question_error empty_question), w).
Proof.
  intros Hq. rewrite process_question_world, process_question_simple_world.
  unfold chain_outcome, simple_outcome. rewrite !decide_True by done. cbn.
  by rewrite add_lines_nil, add_calls_nil.
Qed.

(** X8. Without a usable [GROQ_API_KEY], unset or empty, a question that
    is not blank on a loadable index makes [process_question] fail with
    the error for the missing key before any search. The simple mode
    searches first: it reports a failed search, returns its sentence for
    no documents without needing the key, and fails with the error for
    the missing key only when documents were found. Neither invokes the
    completion service. *)
Theorem missing_api_key_outcome q m (w : World) entries :
  strip q ≠ [] →
  load_embeddings all_MiniLM = inr () →
  fs w !! storage_location = Some (IndexDir entries) →
  falsy (environ w !! api_key_name) = true →
  (process_question q m w).1 = inl (question_error missing_api_key)
  ∧ new_calls w (process_question q m w).2
    = [hf_call; Call_load_local storage_location]
  ∧ (process_question_simple q m w).1
    = match retrieved entries q with
      | inl e => inl (question_error e)
      | inr [] => inr no_documents_answer
      | inr (_ :: _) => inl (question_error missing_api_key)
      end
  ∧ new_calls w (process_question_simple q m w).2
    = [hf_call; Call_load_local storage_location; Call_similarity_search q 4].
Proof.
  intros Hq Hload Hidx Hkey.
  rewrite process_question_result, process_question_calls,
    process_question_simple_result, process_question_simple_calls.
  unfold chain_outcome, simple_outcome. rewrite !decide_False by done.
  rewrite Hload, Hidx, Hkey. split_and!; [done..| |].
  - destruct (retrieved entries q) as [e|[|doc docs]]; [done|by rewrite decide_True|].
    by rewrite decide_False.
  - destruct (retrieved entries q) as [e|[|doc docs]]; [done|by rewrite decide_True|].
    by rewrite decide_False.
Qed.

(** X9. The query functions only read: whatever the question, the model
    name and the world, files and environment are left as they are, and
    the only collaborators called are the embeddings constructor, the
    index loader, the search and the completion service, never the PDF
    reader, the index builder or [save_local]. *)
Theorem queries_read_only q m (w : World) :
  let chain := process_question q m w in
  let simple := process_question_simple q m w in
  fs chain.2 = fs w ∧ environ chain.2 = environ w
  ∧ fs simple.2 = fs w ∧ environ simple.2 = environ w
  ∧ Forall is_query_call (new_calls w chain.2 ++ new_calls w simple.2).
Proof.
  cbn zeta. rewrite process_question_calls, process_question_simple_calls.
  rewrite process_question_world, process_question_simple_world.
  split_and!; [done..|].
  unfold chain_outcome, simple_outcome, synthesis. apply Forall_app.
  split; repeat case_match; cbn; repeat constructor.
Qed.


(** X11. Either query function invokes the completion service at most
    once, and then with the model name it was given, known or not, the
    key of the environment, which is not empty, temperature 0.3 and at
    most 4096 tokens. *)
Theorem completion_call_settings q m (w : World) :
  let chain := new_calls w (process_question q m w).2 in
  let simple := new_calls w (process_question_simple q m w).2 in
  Forall (λ c, ∀ llm messages, c = Call_invoke llm messages →
            falsy (environ w !! api_key_name) = false
            ∧ llm = {| api_key := default [] (environ w !! api_key_name);
                       model := m; temperature := 3 # 10; max_tokens := 4096 |})
    (chain ++ simple)
  ∧ (length (filter is_invoke chain) ≤ 1)%nat
  ∧ (length (filter is_invoke simple) ≤ 1)%nat.
Proof.
  cbn zeta. rewrite process_question_calls, process_question_simple_calls.
  unfold chain_outcome, simple_outcome, synthesis, llm_for.
  split_and!.
  - apply Forall_app. split;
      repeat case_match; cbn; repeat constructor; intros; by simplify_eq.
  - repeat case_match; vm_compute; lia.
  - repeat case_match; vm_compute; lia.
Qed.

Lemma search_subseteq (entries : list (str * vector)) query_vector k :
  search entries query_vector k ⊆ entries.
Proof.
  unfold search. etrans; [apply subseteq_take|].
  intros e He. by rewrite <- (merge_sort_Permutation (nearer query_vector) entries).
Qed.

Lemma search_length (entries : list (str * vector)) query_vector :
  (length (search entries query_vector 4) ≤ 4)%nat.
Proof. unfold search. rewrite length_take. change (Z.to_nat 4) with 4%nat. lia. Qed.

(** X12. After [get_vector_store] has succeeded, a question that is not
    blank finds the index: both query functions construct the embeddings
    and load the index from the storage location, and whenever one of
    them invokes the completion service, the context of the prompt is
    made of at most four of the chunks that were stored. *)
Theorem query_after_store text_chunks (w w' : World) vector_store q m :
  get_vector_store text_chunks w = (inr vector_store, w') →
  strip q ≠ [] →
  let chain := new_calls w' (process_question q m w').2 in
  let simple := new_calls w' (process_question_simple q m w').2 in
  [hf_call; Call_load_local storage_location] `prefix_of` chain
  ∧ [hf_call; Call_load_local storage_location] `prefix_of` simple
  ∧ Forall (λ c, ∀ llm messages, c = Call_invoke llm messages →
              ∃ texts, texts ⊆ text_chunks ∧ (length texts ≤ 4)%nat
                       ∧ messages
                         = [HumanMessage
                              (prompt_text (join [newline; newline] texts) q)])
      (chain ++ simple).
Proof.
  intros Hrun Hq. cbn zeta.
  destruct (get_vector_store_inr _ _ _ _ Hrun) as (vectors & _ & Hload & _ & _ & ->).
  rewrite process_question_calls, process_question_simple_calls.
  cbn [fs environ add_lines set_fs add_calls]. rewrite lookup_insert_eq.
  unfold chain_outcome, simple_outcome. rewrite !decide_False by done.
  rewrite Hload. unfold synthesis.
  assert (Hctx : ∀ docs, retrieved (zip text_chunks vectors) q = inr docs →
    ∃ texts, texts ⊆ text_chunks ∧ (length texts ≤ 4)%nat
             ∧ context_block docs = join [newline; newline] texts).
  { intros docs Hr. unfold retrieved in Hr.
    destruct (embed_query all_MiniLM q) as [e|query_vector]; [done|].
    injection Hr as <-.
    exists ((search (zip text_chunks vectors) query_vector 4).*1). split_and!.
    - intros t Ht. apply list_elem_of_fmap in Ht as ([t' v] & -> & Hin).
      apply search_subseteq in Hin. by apply elem_of_zip_l in Hin.
    - rewrite length_fmap. apply search_length.
    - unfold context_block. by rewrite <- list_fmap_compose. }
  split_and!.
  - repeat case_match; cbn; by eexists.
  - repeat case_match; cbn; by eexists.
  - apply Forall_app. split;
      repeat case_match; cbn; repeat constructor; intros; simplify_eq.
    all: edestruct Hctx as (texts & ? & ? & ->); [done|].
    all: by exists texts.
Qed.

End AskFacts.

(** ** Where the index is stored *)

Section LocationFacts.
Context `{Collaborators}.

Lemma drop_while_app p (l : str) c r :
  Forall (λ x, p x = true) l → p c = false →
  drop_while p (l ++ c :: r) = c :: r.
Proof.
  intros Hl Hc. induction Hl as [|x l Hx _ IH]; cbn.
  - by rewrite Hc.
  - by rewrite Hx.
Qed.

Lemma os_path_dirname_file (dir name : str) c :
  last dir = Some c → c ≠ sep → sep ∉ name →
  os_path_dirname (dir ++ [sep] ++ name) = dir.
Proof.
  intros Hlast Hc Hname.
  assert (Hcs : is_sep c = false).
  { unfold is_sep. by apply N.eqb_neq. }
  assert (Hname' : Forall (λ x, negb (is_sep x) = true) (reverse name)).
  { apply Forall_forall. intros x Hx. rewrite elem_of_reverse in Hx.
    unfold is_sep. apply negb_true_iff, N.eqb_neq. by intros ->. }
  assert (Hrev : reverse dir = c :: reverse (removelast dir)).
  { apply last_Some in Hlast as [d ->].
    by rewrite removelast_last, reverse_app. }
  unfold os_path_dirname.
  rewrite (reverse_app dir), (reverse_app [sep]), reverse_singleton.
  rewrite <- app_assoc. cbn [app].
  rewrite (drop_while_app _ _ _ _ Hname') by done.
  rewrite reverse_involutive.
  replace (forallb is_sep (reverse (sep :: reverse dir))) with false.
  2: { symmetry. apply not_true_is_false. intros Hall.
       rewrite forallb_forall in Hall.
       rewrite (Hall c) in Hcs; [done|].
       apply list_elem_of_In. rewrite elem_of_reverse, Hrev.
       apply list_elem_of_further, list_elem_of_here. }
  cbn [drop_while]. change (is_sep sep) with true. cbn iota.
  rewrite Hrev. cbn [drop_while]. rewrite Hcs.
  by rewrite <- Hrev, reverse_involutive.
Qed.

(** X13. The index is stored beside [rag.py]: when the module is the file
    [name] of a directory [dir] that does not end in a slash, the storage
    location is [dir/faiss_index]. *)
Theorem storage_location_beside_module (dir name : str) c :
  module_file = dir ++ [sep] ++ name →
  last dir = Some c → c ≠ sep → sep ∉ name →
  storage_location = dir ++ [sep] ++ lit "faiss_index".
Proof.
  intros Hmod Hlast Hc Hname. unfold storage_location.
  rewrite Hmod, (os_path_dirname_file dir name c) by done.
  apply last_Some in Hlast as [d ->].
  unfold os_path_join.
  replace (startswith [sep] (lit "faiss_index")) with false by done.
  rewrite decide_False by (by destruct d).
  rewrite reverse_app, reverse_singleton.
  replace (startswith [sep] ([c] ++ reverse d)) with false; [done|].
  symmetry. apply andb_false_intro1, N.eqb_neq. congruence.
Qed.

End LocationFacts.

(** ** The connection test and [main] *)

Section ToolFacts.
Context `{Collaborators}.

Lemma test_api_connection_world model_name (w : World) :
  test_api_connection model_name w
  = (inr (api_test (environ w !! api_key_name) model_name).1,
     add_calls (api_test (environ w !! api_key_name) model_name).2 w).
Proof.
  unfold test_api_connection, api_test, try_except, invoke, os_getenv, record_call,
    lift, mbind, M_bind, mret, M_ret. cbn.
  change (lit "GROQ_API_KEY") with api_key_name.
  destruct (falsy (environ w !! api_key_name)) eqn:Hkey; cbn; rewrite ?Hkey; cbn.
  { by rewrite add_calls_nil. }
  unfold test_llm, test_prompt.
  by destruct (chat_completion _ _) as [e|reply].
Qed.

(** X14. [test_api_connection] never raises. Without a usable
    [GROQ_API_KEY] it returns [False] with the message that the key was
    not found, and calls nothing. Otherwise it invokes the completion
    service once, with the test prompt and at most 50 tokens: when the
    service replies it returns [True] with [API working. Response: ]
    followed by the first 100 characters of the reply, and when the
    service fails it returns [False] with [API test failed: ] followed by
    the message of the error. So it reports success exactly when the
    call returns, in a message of at most 123 characters, and it changes
    nothing but the record of calls. *)
Theorem test_api_connection_outcome model_name (w : World) :
  let key := environ w !! api_key_name in
  let llm := test_llm key model_name in
  let test := Call_invoke llm [HumanMessage test_prompt] in
  (falsy key = true →
   test_api_connection model_name w
   = (inr (false, lit "GROQ_API_KEY not found in environment variables"), w))
  ∧ (∀ reply,
       falsy key = false →
       chat_completion llm [HumanMessage test_prompt] = inr reply →
       test_api_connection model_name w
       = (inr (true, lit "API working. Response: " ++ take 100 reply),
          add_calls [test] w))
  ∧ (∀ e,
       falsy key = false →
       chat_completion llm [HumanMessage test_prompt] = inl e →
       test_api_connection model_name w
       = (inr (false, lit "API test failed: " ++ str_of e), add_calls [test] w))
  ∧ ∃ ok message,
      test_api_connection model_name w
      = (inr (ok, message), add_calls (if falsy key then [] else [test]) w)
      ∧ (ok = true ↔
         falsy key = false
         ∧ ∃ reply, chat_completion llm [HumanMessage test_prompt] = inr reply)
      ∧ (ok = true → (length message ≤ 123)%nat).
Proof.
  cbn zeta. rewrite test_api_connection_world. unfold api_test.
  split_and!.
  - intros ->. cbn [fst snd]. by rewrite add_calls_nil.
  - intros reply -> Hreply. by rewrite Hreply.
  - intros e -> Hfail. by rewrite Hfail.
  - destruct (falsy (environ w !! api_key_name)) eqn:Hkey.
    { eexists _, _. split; [done|]. split; [|done]. split; [done|]. by intros [? _]. }
    destruct (chat_completion _ _) as [e|reply] eqn:Hchat.
    + eexists _, _. split; [done|]. split; [|done]. split; [done|].
      intros [_ [? ?]]. done.
    + eexists _, _. split; [done|]. split.
      * split; [|done]. intros _. split; [done|]. by eexists.
      * intros _. rewrite length_app, length_take.
        change (length (lit "API working. Response: ")) with 23%nat. lia.
Qed.





End ToolFacts.

(** ** [clean_text_for_json] *)

Section CleanFacts.

Lemma str_replace_cons old new c text :
  str_replace old new (c :: text)
  = (if (c =? old)%N then new else [c]) ++ str_replace old new text.
Proof. done. Qed.

Lemma str_replace_app old new s t :
  str_replace old new (s ++ t) = str_replace old new s ++ str_replace old new t.
Proof. unfold str_replace. apply bind_app. Qed.

Lemma str_replace_single old new text :
  str_replace old [new] text = (λ c, if (c =? old)%N then new else c) <$> text.
Proof.
  induction text as [|c text IH]; [done|].
  rewrite str_replace_cons, IH. cbn. by destruct (c =? old)%N.
Qed.

Lemma escape_cons c text :
  escape (c :: text)
  = (if (c =? backslash)%N then [backslash; backslash]
     else if (c =? dquote)%N then [backslash; dquote] else [c]) ++ escape text.
Proof.
  unfold escape. rewrite str_replace_cons.
  destruct (c =? backslash)%N eqn:Hb.
  { by rewrite str_replace_app. }
  rewrite str_replace_app, str_replace_cons.
  by destruct (c =? dquote)%N.
Qed.

Lemma escape_well_escaped text : well_escaped false (escape text) = true.
Proof.
  induction text as [|c text IH]; [done|].
  rewrite escape_cons.
  destruct (c =? backslash)%N eqn:Hb; [by cbn|].
  destruct (c =? dquote)%N eqn:Hq; [by cbn|].
  cbn. by rewrite Hb, Hq.
Qed.

Lemma escape_length text : (length (escape text) ≤ 2 * length text)%nat.
Proof.
  induction text as [|c text IH]; [done|].
  rewrite escape_cons, length_app. cbn [length].
  destruct (c =? backslash)%N, (c =? dquote)%N; cbn [length]; lia.
Qed.

Lemma well_escaped_fmap (f : N → N) escaped s :
  (∀ c, (f c =? backslash)%N = (c =? backslash)%N) →
  (∀ c, (f c =? dquote)%N = (c =? dquote)%N) →
  well_escaped escaped (f <$> s) = well_escaped escaped s.
Proof.
  intros Hb Hq. revert escaped.
  induction s as [|c s IH]; intros escaped; [done|].
  cbn. rewrite Hb, Hq, !IH. done.
Qed.

Lemma isspace_not_special c :
  isspace c = true → (c =? backslash)%N = false ∧ (c =? dquote)%N = false.
Proof.
  intros Hc. split; apply N.eqb_neq; intros ->; discriminate Hc.
Qed.

Lemma well_escaped_sub_whitespace in_run escaped s :
  well_escaped escaped s = true →
  well_escaped escaped (sub_whitespace in_run s) = true.
Proof.
  revert in_run escaped.
  induction s as [|c s IH]; intros in_run escaped; [done|].
  cbn [sub_whitespace]. destruct (isspace c) eqn:Hc.
  - destruct (isspace_not_special c Hc) as [Hb Hq].
    cbn [well_escaped]. rewrite Hb, Hq.
    destruct escaped; [done|]. cbn [negb andb]. intros Hs.
    destruct in_run; [by apply IH|].
    cbn. by apply IH.
  - cbn [well_escaped]. destruct escaped.
    + intros [-> Hs]%andb_true_iff. by rewrite IH.
    + destruct (c =? backslash)%N; [apply IH|].
      intros [-> Hs]%andb_true_iff. by rewrite IH.
Qed.

Lemma well_escaped_lstrip s :
  well_escaped false s = true → well_escaped false (lstrip s) = true.
Proof.
  induction s as [|c s IH]; [done|].
  cbn [lstrip]. destruct (isspace c) eqn:Hc; [|done].
  destruct (isspace_not_special c Hc) as [Hb Hq].
  cbn [well_escaped]. by rewrite Hb, Hq.
Qed.

Lemma lstrip_split s : ∃ t, s = t ++ lstrip s ∧ blank t.
Proof.
  induction s as [|c s (t & Hs & Ht)].
  { exists []. split; [done|constructor]. }
  cbn [lstrip]. destruct (isspace c) eqn:Hc.
  - exists (c :: t). split; [cbn; congruence|by constructor].
  - exists []. split; [done|constructor].
Qed.

Lemma rstrip_split s : ∃ t, s = rstrip s ++ t ∧ blank t.
Proof.
  destruct (lstrip_split (reverse s)) as (t & Hs & Ht).
  exists (reverse t). split.
  - unfold rstrip. rewrite <- reverse_app, <- Hs. by rewrite reverse_involutive.
  - unfold blank. by rewrite Forall_reverse.
Qed.

Lemma well_escaped_blank_tail escaped s t :
  blank t → well_escaped escaped (s ++ t) = true → well_escaped escaped s = true.
Proof.
  intros Ht. revert escaped.
  induction s as [|c s IH]; intros escaped.
  - cbn [app]. destruct escaped; [|done].
    destruct Ht as [|c t Hc _]; [done|].
    destruct (isspace_not_special c Hc) as [Hb Hq].
    cbn. by rewrite Hb, Hq.
  - cbn. destruct escaped.
    + intros [-> Hs]%andb_true_iff. by rewrite IH.
    + destruct (c =? backslash)%N; [apply IH|].
      intros [-> Hs]%andb_true_iff. by rewrite IH.
Qed.

Lemma well_escaped_strip s :
  well_escaped false s = true → well_escaped false (strip s) = true.
Proof.
  intros Hs. unfold strip.
  destruct (rstrip_split (lstrip s)) as (t & Heq & Ht).
  apply (well_escaped_blank_tail _ _ t Ht).
  rewrite <- Heq. by apply well_escaped_lstrip.
Qed.

Lemma clean_text_for_json_unfold text :
  clean_text_for_json text
  = if decide (text = []) then []
    else sub_non_printable
           (strip (sub_whitespace false
              (str_replace 9%N [space] (str_replace 13%N [space]
                 (str_replace newline [space] (escape text)))))).
Proof. done. Qed.

Lemma replace_by_space_special old c :
  isspace old = true →
  ((if (c =? old)%N then space else c) =? backslash)%N = (c =? backslash)%N
  ∧ ((if (c =? old)%N then space else c) =? dquote)%N = (c =? dquote)%N.
Proof.
  intros Hold. destruct (c =? old)%N eqn:Hc; [|done].
  apply N.eqb_eq in Hc as ->.
  destruct (isspace_not_special old Hold) as [-> ->]. done.
Qed.

Lemma well_escaped_replace_by_space old escaped s :
  isspace old = true →
  well_escaped escaped (str_replace old [space] s) = well_escaped escaped s.
Proof.
  intros Hold. rewrite str_replace_single.
  apply well_escaped_fmap; intros c; by apply replace_by_space_special.
Qed.

Lemma sub_non_printable_special c :
  let c' := if (32 <=? c)%N && (c <=? 126)%N then c else space in
  (c' =? backslash)%N = (c =? backslash)%N ∧ (c' =? dquote)%N = (c =? dquote)%N.
Proof.
  cbn zeta. destruct ((32 <=? c)%N && (c <=? 126)%N) eqn:Hc; [done|].
  split; symmetry; apply N.eqb_neq; intros ->; discriminate Hc.
Qed.

(** X16. What [clean_text_for_json] returns can stand between the quotes
    of a JSON string: it consists of printable ASCII characters, each
    backslash in it either escapes the backslash or double quote that
    follows or is itself escaped, and no double quote is left
    unescaped. *)
Theorem clean_text_json_safe text :
  Forall printable (clean_text_for_json text)
  ∧ well_escaped false (clean_text_for_json text) = true.
Proof.
  rewrite clean_text_for_json_unfold. case_decide; [done|]. split.
  - unfold sub_non_printable. apply Forall_fmap, Forall_forall. intros c _.
    unfold printable, compose.
    destruct (32 <=? c)%N eqn:H1; destruct (c <=? 126)%N eqn:H2; cbn [andb];
      rewrite ?N.leb_le in *; unfold space; lia.
  - unfold sub_non_printable. rewrite well_escaped_fmap.
    2, 3: intros c; apply (sub_non_printable_special c).
    apply well_escaped_strip, well_escaped_sub_whitespace.
    rewrite !well_escaped_replace_by_space by done.
    apply escape_well_escaped.
Qed.

Lemma sub_whitespace_length in_run s :
  (length (sub_whitespace in_run s) ≤ length s)%nat.
Proof.
  revert in_run. induction s as [|c s IH]; intros in_run; [done|].
  pose proof (IH true). pose proof (IH false).
  cbn [sub_whitespace]. destruct (isspace c), in_run; cbn [length]; lia.
Qed.

(** X17. Cleaning at most doubles the length of a text: only the
    escaping of backslashes and double quotes adds characters. *)
Theorem clean_text_length text :
  (length (clean_text_for_json text) ≤ 2 * length text)%nat.
Proof.
  rewrite clean_text_for_json_unfold. case_decide; [cbn; lia|].
  unfold sub_non_printable. rewrite length_fmap.
  etrans; [apply strip_length|].
  etrans; [apply sub_whitespace_length|].
  rewrite !str_replace_single, !length_fmap.
  apply escape_length.
Qed.

Lemma blank_escape text : blank (escape text) ↔ blank text.
Proof.
  unfold blank. induction text as [|c text IH]; [done|].
  rewrite escape_cons, Forall_app, Forall_cons, IH.
  destruct (c =? backslash)%N eqn:Hb.
  { apply N.eqb_eq in Hb as ->. split.
    - intros [Hc _]. by apply Forall_cons in Hc as [Hc _].
    - by intros [Hc _]. }
  destruct (c =? dquote)%N eqn:Hq.
  { apply N.eqb_eq in Hq as ->. split.
    - intros [Hc _]. by apply Forall_cons in Hc as [Hc _].
    - by intros [Hc _]. }
  by rewrite Forall_singleton.
Qed.

Lemma blank_replace_by_space old s :
  isspace old = true → blank (str_replace old [space] s) ↔ blank s.
Proof.
  intros Hold. rewrite str_replace_single. unfold blank.
  rewrite Forall_fmap. apply Forall_iff. intros c. cbn.
  destruct (c =? old)%N eqn:Hc; [|done].
  apply N.eqb_eq in Hc as ->. by rewrite Hold.
Qed.

Lemma blank_sub_whitespace in_run s :
  blank (sub_whitespace in_run s) ↔ blank s.
Proof.
  unfold blank. revert in_run.
  induction s as [|c s IH]; intros in_run; [done|].
  cbn [sub_whitespace]. destruct (isspace c) eqn:Hc.
  - destruct in_run; rewrite ?Forall_cons, IH, Hc.
    + split; [done|by intros [_ ?]].
    + split; intros [_ ?]; done.
  - rewrite !Forall_cons, IH. by rewrite Hc.
Qed.

Lemma lstrip_nil s : lstrip s = [] ↔ blank s.
Proof.
  unfold blank. induction s as [|c s IH]; [done|].
  cbn [lstrip]. rewrite Forall_cons. destruct (isspace c) eqn:Hc.
  - rewrite IH. split; [done|by intros [_ ?]].
  - split; [done|by intros [? _]].
Qed.

Lemma strip_nil s : strip s = [] ↔ blank s.
Proof.
  unfold strip. split.
  - intros Hs. destruct (rstrip_split (lstrip s)) as (t & Heq & Ht).
    rewrite Hs in Heq. cbn in Heq.
    destruct (lstrip_split s) as (t' & Heq' & Ht').
    rewrite Heq'. unfold blank in *. rewrite Forall_app. split; [done|].
    by rewrite Heq.
  - intros Hs. apply lstrip_nil in Hs. by rewrite Hs.
Qed.

(** X18. [clean_text_for_json] returns the empty string exactly for the
    texts that consist of whitespace only, the empty text among them. *)
Theorem clean_text_empty_iff_blank text :
  clean_text_for_json text = [] ↔ blank text.
Proof.
  rewrite clean_text_for_json_unfold. case_decide as Htext.
  { subst. split; [|done]. intros _. constructor. }
  rewrite <- blank_escape.
  rewrite <- (blank_replace_by_space newline), <- (blank_replace_by_space 13%N),
    <- (blank_replace_by_space 9%N), <- (blank_sub_whitespace false), <- strip_nil
    by done.
  unfold sub_non_printable. split; [apply fmap_nil_inv|by intros ->].
Qed.

End CleanFacts.

(** ** The stages of ingestion, one after the other *)

Section PipelineFacts.
Context `{Collaborators}.

(** X19. Storing again replaces the index: once [get_vector_store] has
    succeeded, a later call with chunks that the embedder accepts
    succeeds as well, whatever was stored before, and leaves at the
    storage location the entries of the later chunks only; every other
    file is as it was before the first call. *)
Theorem store_again_replaces text_chunks later vectors (w w1 : World) vector_store :
  get_vector_store text_chunks w = (inr vector_store, w1) →
  later ≠ [] →
  embed_documents all_MiniLM later = inr vectors →
  ∃ w2, get_vector_store later w1 = (inr (loaded (zip later vectors)), w2)
        ∧ fs w2 = <[storage_location := IndexDir (zip later vectors)]> (fs w).
Proof.
  intros Hfirst Hlater Hvectors.
  destruct (get_vector_store_inr _ _ _ _ Hfirst) as (vs & _ & Hload & _ & _ & ->).
  rewrite get_vector_store_world. unfold store_outcome.
  rewrite decide_False by done. rewrite Hload, Hvectors.
  cbn [fs environ add_lines set_fs add_calls]. rewrite lookup_insert_eq.
  cbn [fst snd]. eexists. split; [reflexivity|].
  cbn [fs environ add_lines set_fs add_calls]. apply insert_insert_eq.
Qed.

(** X20. The text [get_pdf_text] returns never trips the guard of
    [get_text_chunks] against empty input: chunking it either returns
    chunks, at least one, or fails because no chunk is long enough. *)
Theorem extracted_text_chunking pdf_paths (w w' : World) text :
  get_pdf_text pdf_paths w = (inr text, w') →
  get_text_chunks text = inl (splitting_error no_valid_chunks)
  ∨ ∃ chunks, get_text_chunks text = inr chunks ∧ chunks ≠ [].
Proof.
  rewrite get_pdf_text_unfold.
  destruct (read_pdfs pdf_paths [] w) as [[e|text'] w1]; [done|].
  case_decide as Hblank; [done|]. intros [= <- <-].
  destruct (get_text_chunks_unfold text' Hblank) as (produced & _ & _ & ->).
  case_decide; [by left|]. right. by eexists.
Qed.

End PipelineFacts.

(** ** The concrete setting *)

#[local] Existing Instance demo.

Lemma query_without_index_witness :
  (∃ e, (process_question demo_question default_model_name no_index_world).1 = inl e
        ∧ (process_question_simple demo_question default_model_name no_index_world).1
          = inl e
        ∧ (strip demo_question ≠ [] →
           @load_embeddings demo all_MiniLM = inr () →
           e = question_error index_not_found))
  ∧ Forall (λ c, c = hf_call)
      (new_calls no_index_world
         (process_question demo_question default_model_name no_index_world).2)
  ∧ Forall (λ c, c = hf_call)
      (new_calls no_index_world
         (process_question_simple demo_question default_model_name no_index_world).2).
Proof.
  apply (query_without_index (H:=demo) demo_question default_model_name no_index_world).
  vm_compute. reflexivity.
Defined.

(** C5, as stated, fails: with nothing at the storage location a blank
    question makes both query functions fail with the error for an empty
    question, not with the one for a missing index. *)
Lemma blank_question_without_index :
  fs no_index_world !! @storage_location demo = None
  ∧ (process_question (lit "  ") default_model_name no_index_world).1
    = inl (question_error empty_question)
  ∧ (process_question_simple (lit "  ") default_model_name no_index_world).1
    = inl (question_error empty_question)
  ∧ question_error empty_question ≠ question_error (@index_not_found demo).
Proof.
  split_and!; [vm_compute; reflexivity..|].
  unfold question_error, wrapped, empty_question, index_not_found.
  intros Heq. discriminate Heq.
Qed.

Lemma query_modes_agree_witness :
  (process_question demo_question default_model_name indexed_world).1
  = (process_question_simple demo_question default_model_name indexed_world).1.
Proof.
  apply (query_modes_agree (H:=demo) demo_question default_model_name indexed_world
           [(demo_chunk, 65 : @vector demo)] [{| page_content := demo_chunk |}]).
  - vm_compute. discriminate.
  - vm_compute. reflexivity.
  - vm_compute. reflexivity.
  - discriminate.
Defined.

(** C3, as stated, fails: on an index without entries both functions
    obtain the same question and the same, empty, retrieved context, and
    yet [process_question] returns the reply of the completion service
    while [process_question_simple] returns its own sentence. *)
Lemma modes_differ_on_empty_index :
  strip demo_question ≠ []
  ∧ fs empty_index_world !! @storage_location demo = Some (IndexDir [])
  ∧ (similarity_search (loaded []) demo_question 4 empty_index_world).1 = inr []
  ∧ (process_question demo_question default_model_name empty_index_world).1
    = inr (lit "Chlorophyll.")
  ∧ (process_question_simple demo_question default_model_name empty_index_world).1
    = inr (lit "No relevant documents found for your question.")
  ∧ (process_question demo_question default_model_name empty_index_world).1
    ≠ (process_question_simple demo_question default_model_name empty_index_world).1.
Proof.
  split_and!; [vm_compute; discriminate|vm_compute; reflexivity..|].
  vm_compute. discriminate.
Qed.

(** C6, as stated, fails: on an index without entries
    [process_question_simple] neither fails nor asks the completion
    service; it returns a sentence of its own. *)
Lemma local_answer_without_synthesis :
  let out := process_question_simple demo_question default_model_name empty_index_world in
  out.1 = inr (lit "No relevant documents found for your question.")
  ∧ new_calls empty_index_world out.2
    = [hf_call; Call_load_local (@storage_location demo);
       Call_similarity_search demo_question 4]
  ∧ ¬ synthesized (new_calls empty_index_world out.2)
        (lit "No relevant documents found for your question.").
Proof.
  split_and!; [vm_compute; reflexivity..|].
  intros (llm & messages & Hlast & _). vm_compute in Hlast. discriminate Hlast.
Qed.

(** A whole run: the PDF on disk is ingested, which puts a one-entry
    index at the storage location; a question asked afterwards is
    answered by the completion service, which was handed the prompt built
    from the indexed chunk and the question. *)
Lemma retrieval_top_k_witness :
  let ask :=
    Call_invoke (llm_for (Some (lit "gsk")) default_model_name)
      [HumanMessage (prompt_text demo_chunk demo_question)] in
  new_calls indexed_world
    (process_question_simple demo_question default_model_name indexed_world).2
  = [hf_call; Call_load_local storage_location;
     Call_similarity_search demo_question 4; ask]
  ∧ new_calls indexed_world
      (process_question demo_question default_model_name indexed_world).2
    = [hf_call; Call_load_local storage_location;
       Call_similarity_search demo_question 4; ask].
Proof.
  destruct (retrieval_top_k (H:=demo) demo_question default_model_name indexed_world
              [(demo_chunk, 65 : @vector demo)] 35)
    as (_ & _ & Hcalls & _).
  destruct Hcalls as (Hsimple & _ & Hchain).
  - vm_compute. discriminate.
  - vm_compute. reflexivity.
  - vm_compute. reflexivity.
  - vm_compute. reflexivity.
  - split; [exact Hsimple|]. apply Hchain. vm_compute. reflexivity.
Defined.


Lemma single_storage_location_witness :
  (∃ w', get_vector_store [demo_question] indexed_world
         = (inr (loaded [(demo_question, 35 : @vector demo)]), w')
         ∧ last (new_calls indexed_world w') = Some (Call_save_local storage_location)
         ∧ fs w' !! @storage_location demo
           = Some (IndexDir [(demo_question, 35 : @vector demo)]))
  ∧ [hf_call; Call_load_local storage_location]
      `prefix_of` new_calls indexed_world
                    (process_question demo_question default_model_name indexed_world).2
  ∧ (process_question_simple demo_question default_model_name no_index_world).1
    = inl (question_error index_not_found).
Proof.
  destruct (single_storage_location (H:=demo))
    as (_ & _ & _ & _ & Hstore & Hload & Hnone).
  split_and!.
  - apply (Hstore [demo_question] [35] indexed_world).
    + discriminate.
    + vm_compute. reflexivity.
    + vm_compute. reflexivity.
    + intros data. vm_compute. discriminate.
  - apply (Hload demo_question default_model_name indexed_world
             [(demo_chunk, 65 : @vector demo)]).
    + vm_compute. discriminate.
    + vm_compute. reflexivity.
    + vm_compute. reflexivity.
  - apply (Hnone demo_question default_model_name no_index_world).
    + vm_compute. discriminate.
    + vm_compute. reflexivity.
    + vm_compute. reflexivity.
Defined.

Example ingest_then_query :
  let ingested := ingest [lit "/srv/notes.pdf"] pdf_world in
  let index := [(demo_chunk, 65 : @vector demo)] in
  ingested.1 = inr (loaded index)
  ∧ fs ingested.2 !! @storage_location demo = Some (IndexDir index)
  ∧ stdout ingested.2
    = [lit "Vector store saved successfully at: /srv/app/rag/faiss_index";
       lit "Number of documents indexed: 1"]
  ∧ let asked := process_question_simple demo_question default_model_name ingested.2 in
    asked.1 = inr (lit "Chlorophyll.")
    ∧ last (calls asked.2)
      = Some (Call_invoke (llm_for (Some (lit "gsk")) default_model_name)
                [HumanMessage (prompt_text demo_chunk demo_question)])
    ∧ (process_question demo_question default_model_name ingested.2).1 = asked.1.
Proof. vm_compute. split_and!; reflexivity. Qed.

(** An empty batch of documents: extraction fails, nothing is called and
    nothing is written. *)
Example ingest_empty_batch :
  let ingested := ingest [] no_index_world in
  ingested.1
    = inl (Exn Exception (lit "No text could be extracted from the provided PDFs") None)
  ∧ ingested.2 = no_index_world.
Proof. vm_compute. split; reflexivity. Qed.

(** The search on an index of five entries and on one of two, the
    distance being the difference of the vectors. *)
Example search_nearest_first :
  search (H:=demo)
    [(lit "a", 10); (lit "b", 3); (lit "c", 7); (lit "d", 1); (lit "e", 20)] 0 4
  = [(lit "d", 1); (lit "b", 3); (lit "c", 7); (lit "a", 10)]
  ∧ search (H:=demo) [(lit "a", 10); (lit "b", 3)] 0 4
    = [(lit "b", 3); (lit "a", 10)].
Proof. vm_compute. split; reflexivity. Qed.

(** ** The further properties in the concrete setting *)

Lemma get_pdf_text_success_witness :
  let pdf_paths := [lit "/srv/notes.pdf"] in
  let text := demo_chunk ++ [newline] in
  let w' := add_calls [Call_PdfReader (lit "/srv/notes.pdf")] pdf_world in
  get_pdf_text pdf_paths pdf_world = (inr text, w')
  ∧ w' = add_calls (Call_PdfReader <$> pdf_paths) pdf_world
  ∧ strip text ≠ []
  ∧ ∃ files, Forall2 (readable pdf_world) pdf_paths files ∧ text = files ≫= page_texts.
Proof.
  cbn zeta. split; [vm_compute; reflexivity|].
  apply (get_pdf_text_success (H:=demo) [lit "/srv/notes.pdf"] pdf_world).
  vm_compute. reflexivity.
Defined.

Lemma get_pdf_text_missing_file_witness :
  get_pdf_text [lit "/srv/notes.pdf"; lit "/srv/lost.pdf"; lit "/srv/notes.pdf"] pdf_world
  = (inl (reading_error (lit "/srv/lost.pdf") (pdf_not_found (lit "/srv/lost.pdf"))),
     add_calls [Call_PdfReader (lit "/srv/notes.pdf")] pdf_world).
Proof.
  apply (get_pdf_text_missing_file (H:=demo) [lit "/srv/notes.pdf"] (lit "/srv/lost.pdf")
           [lit "/srv/notes.pdf"] [[demo_chunk]] pdf_world).
  - repeat constructor. exists demo_chunk. vm_compute. split; reflexivity.
  - vm_compute. reflexivity.
Defined.

Lemma get_pdf_text_no_text_witness :
  get_pdf_text [lit "/srv/scan.pdf"] blank_pdf_world
  = (inl no_text_extracted,
     add_calls [Call_PdfReader (lit "/srv/scan.pdf")] blank_pdf_world).
Proof.
  apply (get_pdf_text_no_text (H:=demo) [lit "/srv/scan.pdf"] [[[]]] blank_pdf_world).
  - repeat constructor. exists []. vm_compute. split; reflexivity.
  - vm_compute. reflexivity.
Defined.

Lemma blank_question_rejected_witness :
  process_question (lit "  ") default_model_name indexed_world
  = (inl (question_error empty_question), indexed_world)
  ∧ process_question_simple (lit "  ") default_model_name indexed_world
    = (inl (question_error empty_question), indexed_world).
Proof.
  apply (blank_question_rejected (H:=demo) (lit "  ") default_model_name indexed_world).
  vm_compute. reflexivity.
Defined.

Lemma missing_api_key_outcome_witness :
  (process_question demo_question default_model_name keyless_world).1
  = inl (question_error missing_api_key)
  ∧ (process_question_simple demo_question default_model_name keyless_world).1
    = inl (question_error missing_api_key).
Proof.
  destruct (missing_api_key_outcome (H:=demo) demo_question default_model_name
              keyless_world [(demo_chunk, 65 : @vector demo)])
    as (Hchain & _ & Hsimple & _).
  - vm_compute. discriminate.
  - vm_compute. reflexivity.
  - vm_compute. reflexivity.
  - vm_compute. reflexivity.
  - split; [exact Hchain|exact Hsimple].
Defined.

Lemma query_after_store_witness :
  let w' := (get_vector_store [demo_chunk] no_index_world).2 in
  [hf_call; Call_load_local storage_location]
    `prefix_of` new_calls w' (process_question demo_question default_model_name w').2
  ∧ [hf_call; Call_load_local storage_location]
      `prefix_of` new_calls w' (process_question_simple demo_question default_model_name w').2.
Proof.
  cbn zeta.
  destruct (query_after_store (H:=demo) [demo_chunk] no_index_world
              (get_vector_store [demo_chunk] no_index_world).2
              (loaded [(demo_chunk, 65 : @vector demo)])
              demo_question default_model_name)
    as (Hchain & Hsimple & _).
  - vm_compute. reflexivity.
  - vm_compute. discriminate.
  - split; [exact Hchain|exact Hsimple].
Defined.

Lemma storage_location_beside_module_witness :
  @storage_location demo = lit "/srv/app/rag" ++ [sep] ++ lit "faiss_index".
Proof.
  apply (storage_location_beside_module (H:=demo) (lit "/srv/app/rag") (lit "rag.py") 103%N).
  - vm_compute. reflexivity.
  - vm_compute. reflexivity.
  - vm_compute. discriminate.
  - intros Hin. vm_compute in Hin.
    repeat (apply elem_of_cons in Hin as [Heq|Hin]; [discriminate Heq|]).
    by apply elem_of_nil in Hin.
Defined.

Lemma store_again_replaces_witness :
  let w1 := (get_vector_store [demo_chunk] no_index_world).2 in
  ∃ w2, get_vector_store [demo_question] w1
        = (inr (loaded [(demo_question, 35 : @vector demo)]), w2)
        ∧ fs w2 = <[@storage_location demo := IndexDir [(demo_question, 35 : @vector demo)]]>
                    (fs no_index_world).
Proof.
  cbn zeta.
  apply (store_again_replaces (H:=demo) [demo_chunk] [demo_question] [35]
           no_index_world (get_vector_store [demo_chunk] no_index_world).2
           (loaded [(demo_chunk, 65 : @vector demo)])).
  - vm_compute. reflexivity.
  - discriminate.
  - vm_compute. reflexivity.
Defined.

Lemma extracted_text_chunking_witness :
  get_text_chunks (demo_chunk ++ [newline]) = inl (splitting_error no_valid_chunks)
  ∨ ∃ chunks, get_text_chunks (demo_chunk ++ [newline]) = inr chunks ∧ chunks ≠ [].
Proof.
  apply (extracted_text_chunking (H:=demo) [lit "/srv/notes.pdf"] pdf_world
           (add_calls [Call_PdfReader (lit "/srv/notes.pdf")] pdf_world)).
  vm_compute. reflexivity.
Defined.
